(** * Dotted-path navigation, node paths, deployed-application lookup and
      the filter form builder of the ADF components

    The development embeds, function by function,
    - [getObjectValue] and [getNodePath] of
      ng2-alfresco-documentlist/src/components/document-list.ts, and the
      navigation of its component: [canNavigateParent], [ngOnInit],
      [getContentActions], [onNavigateParentClick], [onItemClick],
      [goToRoute] and [displayFolderContent],
    - [getDeployedApplicationsByStatus], [getRunningApplications],
      [getApplicationUrl] and [handleError] of
      process-services-cloud/src/lib/app/services/apps-process-cloud.service.ts,
    and, modelled from the specification, the form builder [build] whose
    component source is not part of the sources at hand.

    JavaScript values are data values: [undefined], [null], booleans,
    numbers that are safe integers, strings and objects.  An object is its
    table of own properties, a finite map from property names to values,
    with [Object.prototype] as its prototype.  A property read with a
    computed key, as [getObjectValue] makes it, also finds the members that
    the object inherits: what it gives is a [jsvalue], a data value,
    [Object.prototype] itself or one of its methods.  Functions are not
    data values. *)

From Stdlib Require Import Ascii String.
From stdpp Require Import gmap strings list fin_maps pretty.

Set Warnings "-register-all".

(** ** JavaScript values, exceptions and completions *)

(** A number [VNum n] is a safe integer, [-(2^53 - 1) <= n <= 2^53 - 1]:
    the range in which the numbers of JavaScript are the integers, and in
    which their string conversion prints the decimal digits. *)
Inductive value : Type :=
  | VUndefined
  | VNull
  | VBool (b : bool)
  | VNum (n : Z)
  | VStr (s : string)
  | VObj (fields : gmap string value).

(** What a [throw] carries: the two runtime errors the embedded code can
    provoke, or an arbitrary value handed over by a collaborator. *)
Inductive exn : Type :=
  | TypeError
  | ReferenceError (ident : string)
  | Thrown (v : value).

(** Completion of a synchronous computation: a value or an exception. *)
Inductive result (A : Type) : Type :=
  | Ok (a : A)
  | Throw (e : exn).
Arguments Ok {A} a.
Arguments Throw {A} e.

#[global] Instance result_ret : MRet result := λ A a, Ok a.
#[global] Instance result_bind : MBind result := λ A B k r,
  match r with
  | Ok a => k a
  | Throw e => Throw e
  end.

(** [v !== undefined] *)
Definition is_defined (v : value) : bool :=
  match v with VUndefined => false | _ => true end.

(** [typeof v === 'object']: objects, and also [null]. *)
Definition typeof_object (v : value) : bool :=
  match v with VNull | VObj _ => true | _ => false end.

(** JavaScript truthiness, as used by [if (node)] and [error || ...]. *)
Definition truthy (v : value) : bool :=
  match v with
  | VUndefined | VNull => false
  | VBool b => b
  | VNum n => negb (n =? 0)%Z
  | VStr s => negb (String.eqb s "")
  | VObj _ => true
  end.

(** Member read [target.key] for the member names that the sources write
    out ([written_members] below), none of which names a member of a
    prototype of the standard library: reading a member of [undefined] or
    [null] is a TypeError, a record gives its own property, and a missing
    property reads as [undefined].  The read of a computed key, which can
    name an inherited member, is [read_property]. *)
Definition get_member (target : value) (key : string) : result value :=
  match target with
  | VUndefined | VNull => Throw TypeError
  | VObj fields => Ok (default VUndefined (fields !! key))
  | VBool _ | VNum _ | VStr _ => Ok VUndefined
  end.

(** The member names that the sources write out in the member reads which
    [get_member] models: [item.entry], [entry.path], [path.name],
    [entry.name], [entry.isFolder]. *)
Definition written_members : list string :=
  ["entry"; "path"; "name"; "isFolder"].

(** ** Strings: [split('.')], joining, [replace], string conversion *)

Definition dot : ascii := "."%char.

(** [s.split('.')]: the pieces between the dots; the empty string gives the
    one empty piece. *)
Fixpoint split_dot (s : string) : list string :=
  match s with
  | EmptyString => [EmptyString]
  | String c rest =>
      if Ascii.eqb c dot then EmptyString :: split_dot rest
      else match split_dot rest with
           | [] => [String c EmptyString]
           | piece :: pieces => String c piece :: pieces
           end
  end.

(** [segs.join('.')] *)
Fixpoint join_dot (segs : list string) : string :=
  match segs with
  | [] => ""
  | [seg] => seg
  | seg :: rest => seg +:+ "." +:+ join_dot rest
  end.

(** A segment is a piece of a dotted path: it holds no dot. *)
Fixpoint dot_free (s : string) : bool :=
  match s with
  | EmptyString => true
  | String c rest => negb (Ascii.eqb c dot) && dot_free rest
  end.

Fixpoint strip_prefix (p s : string) : option string :=
  match p, s with
  | EmptyString, _ => Some s
  | String a p', String b s' =>
      if Ascii.eqb a b then strip_prefix p' s' else None
  | String _ _, EmptyString => None
  end.

(** [s.replace(pat, by)] with a string pattern: the first occurrence only. *)
Fixpoint replace_first (pat by_ s : string) : string :=
  match strip_prefix pat s with
  | Some rest => by_ +:+ rest
  | None =>
      match s with
      | EmptyString => EmptyString
      | String c s' => String c (replace_first pat by_ s')
      end
  end.

(** String conversion of the right operand of [string + v]; of a number,
    which is a safe integer, the decimal digits. *)
Definition to_js_string (v : value) : string :=
  match v with
  | VUndefined => "undefined"
  | VNull => "null"
  | VBool true => "true"
  | VBool false => "false"
  | VNum n => pretty n
  | VStr s => s
  | VObj _ => "[object Object]"
  end.

(** ** document-list.ts: [getObjectValue] *)

(** What a property read on an object can deliver: a data value, or one of
    the members that every object inherits from [Object.prototype] in the
    standard library, that is the prototype itself (under [__proto__]) or
    one of its functions, known here by the name it is inherited under
    ([constructor] is the function [Object]). *)
Inductive jsvalue : Type :=
  | Data (v : value)
  | ObjectPrototype
  | Inherited (name : string).

(** The functions of [Object.prototype] (ECMAScript 2015 with its annex B),
    the prototype not being extended. *)
Definition Object_prototype_functions : list string :=
  ["constructor"; "hasOwnProperty"; "isPrototypeOf"; "propertyIsEnumerable";
   "toLocaleString"; "toString"; "valueOf"; "__defineGetter__";
   "__defineSetter__"; "__lookupGetter__"; "__lookupSetter__"].

(** The names under which an object inherits something. *)
Definition inherited_name (key : string) : bool :=
  String.eqb key "__proto__"
  || bool_decide (key ∈ Object_prototype_functions).

(** The object whose properties the loop reads: the record it was given or
    a record stored in it, [null], or [Object.prototype].  A primitive as
    the object to start from would bring in the members of its boxed
    prototype; the loop itself never makes a primitive or a function its
    target. *)
Inductive target : Type :=
  | OfRecord (fields : gmap string value)
  | OfNull
  | OfObjectPrototype.

(** A key looked up in [Object.prototype]; [proto] is what the accessor
    [__proto__] gives, the prototype of the object the read started at. *)
Definition inherited_member (proto : jsvalue) (key : string) : jsvalue :=
  if String.eqb key "__proto__" then proto
  else if bool_decide (key ∈ Object_prototype_functions) then Inherited key
  else Data VUndefined.

(** [target[key]]: an own property goes before an inherited member, the
    prototype of [Object.prototype] is [null], and reading a property of
    [null] is a TypeError. *)
Definition read_property (target : target) (key : string) : result jsvalue :=
  match target with
  | OfNull => Throw TypeError
  | OfRecord fields =>
      Ok (match fields !! key with
          | Some v => Data v
          | None => inherited_member ObjectPrototype key
          end)
  | OfObjectPrototype => Ok (inherited_member (Data VNull) key)
  end.

(** [value !== undefined] *)
Definition js_defined (value : jsvalue) : bool :=
  match value with
  | Data v => is_defined v
  | ObjectPrototype | Inherited _ => true
  end.

(** [typeof value === 'object']; the type of a function is ['function']. *)
Definition js_typeof_object (value : jsvalue) : bool :=
  match value with
  | Data v => typeof_object v
  | ObjectPrototype => true
  | Inherited _ => false
  end.

(** [target = value] for a value whose type is ['object']: a record,
    [Object.prototype], or [null]. *)
Definition object_of (value : jsvalue) : target :=
  match value with
  | Data (VObj fields) => OfRecord fields
  | ObjectPrototype => OfObjectPrototype
  | _ => OfNull
  end.

(** One round of the [do ... while (keys.length)] loop, entered with the
    segment [k] that [keys.shift()] is about to deliver and the segments
    [rest] left behind it. *)
Fixpoint getObjectValue_loop (target : target) (key : string)
    (k : string) (rest : list string) : result jsvalue :=
  let key := key +:+ k in
  value ← read_property target key ;
  if js_defined value
     && (js_typeof_object value || bool_decide (rest = []))
  then
    (* target = value; key = '' *)
    match rest with
    | [] => Ok value
    | k' :: rest' => getObjectValue_loop (object_of value) "" k' rest'
    end
  else
    match rest with
    | [] => (* target = undefined *) Ok (Data VUndefined)
    | k' :: rest' => (* key += '.' *)
        getObjectValue_loop target (key +:+ ".") k' rest'
    end.

(** [getObjectValue(target, key)].  [split] never returns an empty array;
    were it empty, [keys.shift()] would be [undefined] and the single round
    would read the property named ['undefined']. *)
Definition getObjectValue (target : target) (key : string)
    : result jsvalue :=
  match split_dot key with
  | k :: rest => getObjectValue_loop target "" k rest
  | [] =>
      value ← read_property target "undefined" ;
      Ok value
  end.

(** The read under [key] gives no object: nothing, a primitive, or an
    inherited function.  Such a key is passed over by a round that has
    segments left. *)
Definition reads_no_object (target : target) (key : string) : Prop :=
  ∃ value, read_property target key = Ok value ∧
           js_typeof_object value = false.

(** The key that the loop has accumulated is empty, at the start and after
    a descent, or holds a dot (it ends in one). *)
Definition accumulated (key : string) : Prop :=
  key = "" ∨ dot_free key = false.

(** The value a record stores at a sequence of segments: every segment
    but the last leads to an object, the last one to the value. *)
Fixpoint value_at (record : gmap string value) (segs : list string)
    : option value :=
  match segs with
  | [] => None
  | k :: rest =>
      match rest with
      | [] => record !! k
      | _ :: _ =>
          match record !! k with
          | Some (VObj inner) => value_at inner rest
          | _ => None
          end
      end
  end.

(** The key the loop has accumulated once it has consumed the segments
    [pre] without finding any of their joins: each followed by a dot. *)
Definition prefix_key (pre : list string) : string :=
  match pre with
  | [] => ""
  | _ :: _ => join_dot pre +:+ "."
  end.

(** A value in which no [null] is stored, at any depth. *)
Inductive null_free : value → Prop :=
  | null_free_undefined : null_free VUndefined
  | null_free_bool b : null_free (VBool b)
  | null_free_num n : null_free (VNum n)
  | null_free_str s : null_free (VStr s)
  | null_free_obj fields :
      (∀ k v, fields !! k = Some v → null_free v) →
      null_free (VObj fields).

(** ** document-list.ts: [getNodePath] *)

(** The names the body of [getNodePath] binds itself: its parameter and its
    [let]. *)
Definition getNodePath_locals : list string :=
  ["node"; "pathWithCompanyHome"].

(** The names document-list.ts binds at module level: its imports, its two
    ambient declarations and its class. *)
Definition module_identifiers : list string :=
  ["Component"; "OnInit"; "Input"; "Output"; "EventEmitter";
   "AfterContentInit"; "AfterViewChecked"; "AlfrescoService";
   "MinimalNodeEntity"; "ContentActionModel"; "ContentColumnModel";
   "NodePaging"; "componentHandler"; "__moduleName"; "DocumentList"].

(** Reading a free identifier: it is looked up in the enclosing bindings,
    and a name bound nowhere is a ReferenceError. *)
Definition lookup_ident (scope : gmap string value) (ident : string)
    : result value :=
  match scope !! ident with
  | Some v => Ok v
  | None => Throw (ReferenceError ident)
  end.

(** [recv.replace(pat, by)]: only a string has the method. *)
Definition js_replace (recv : value) (pat by_ : string) : result string :=
  match recv with
  | VStr s => Ok (replace_first pat by_ s)
  | _ => Throw TypeError
  end.

(** [getNodePath(node)].  [scope] holds whatever binds the free identifiers
    of the body, here [item], outside the function and the module. *)
Definition getNodePath (scope : gmap string value) (node : value)
    : result value :=
  if truthy node then
    item ← lookup_ident scope "item" ;
    entry ← get_member item "entry" ;
    path ← get_member entry "path" ;
    pathWithCompanyHome ← get_member path "name" ;
    stripped ← js_replace pathWithCompanyHome "/Company Home" "" ;
    item' ← lookup_ident scope "item" ;
    entry' ← get_member item' "entry" ;
    name ← get_member entry' "name" ;
    Ok (VStr (stripped +:+ "/" +:+ to_js_string name))
  else Ok VNull.

(** ** apps-process-cloud.service.ts *)

(** What an Observable built from one promise delivers: the value, or the
    error. *)
Inductive notification (A : Type) : Type :=
  | Next (a : A)
  | Error (err : exn).
Arguments Next {A} a.
Arguments Error {A} err.

(** Truthiness of a thrown thing; the runtime's error objects are objects. *)
Definition exn_truthy (e : exn) : bool :=
  match e with
  | Thrown v => truthy v
  | TypeError | ReferenceError _ => true
  end.

(** [v === s] for a string [s]. *)
Definition strict_eq_string (v : value) (s : string) : bool :=
  match v with
  | VStr s' => String.eqb s' s
  | _ => false
  end.

(** [app.status === status] for an object [app]. *)
Definition status_is (status : string) (app : gmap string value) : bool :=
  strict_eq_string (default VUndefined (app !! "status")) status.

Section AppsProcessCloudService.
(** The model class, whose declaration is in another file: its constructor
    is taken as given. *)
Context {Model : Type} (ApplicationInstanceModel : gmap string value → Model).

(** [handleError(error)]: the error is logged, then thrown again, a falsy
    one as ['Server error'].  The log service is the list of what it was
    given. *)
Definition handleError {A} (error : exn) (log : list exn)
    : notification A * list exn :=
  (Error (if exn_truthy error then error else Thrown (VStr "Server error")),
   (log ++ [error])%list).

(** [getDeployedApplicationsByStatus(status)], given what the call to the
    deployment service delivers. *)
Definition getDeployedApplicationsByStatus
    (response : notification (list (gmap string value)))
    (status : string) (log : list exn)
    : notification (list Model) * list exn :=
  match response with
  | Next apps =>
      (Next (ApplicationInstanceModel <$>
               filter (λ app, status_is status app) apps), log)
  | Error err => handleError err log
  end.

End AppsProcessCloudService.

(** ** The filter form builder *)

(** Modelled from the spec: the data model of section 3.  The component
    that builds the form (EditProcessFilterCloudComponent) is known here by
    its test suite only.  A domain is the list of allowed values, the empty
    list being the domain that declares none (unrestricted). *)
Record PropertyTemplate : Type := {
  t_label : string;
  t_defaultValue : value;
  t_domain : list value;
  t_dependentLookup : option string
}.

(** Modelled from the spec: a descriptor is a template under its key. *)
Record PropertyDescriptor : Type := {
  key : string;
  label : string;
  defaultValue : value;
  domain : list value;
  dependentLookup : option string
}.

(** Modelled from the spec: the built-in default set, the three keys the
    test suite finds in a form built from an empty input. *)
Definition DEFAULT_PROPERTIES : list string := ["state"; "sort"; "order"].

(** Modelled from the spec: the catalog that the builder is given, a
    mapping from keys to templates which knows the built-in default set
    (section 2: the canonical list of known filter-property names, which
    holds the baseline filter fields). *)
Record Catalog : Type := {
  templates :> gmap string PropertyTemplate;
  canonical :
    Is_true (forallb (λ k, bool_decide (is_Some (templates !! k)))
               DEFAULT_PROPERTIES)
}.

(** Modelled from the spec: the contract of PathResolver, [value | Absent]
    and never raising, over [getObjectValue]; [undefined] is Absent, and so
    is, for the builder, a member inherited from [Object.prototype] (it is
    no value of the record) and a path on which the source function
    raises. *)
Definition resolve (record : gmap string value) (path : string)
    : option value :=
  match getObjectValue (OfRecord record) path with
  | Ok (Data v) => if is_defined v then Some v else None
  | Ok _ | Throw _ => None
  end.

(** Modelled from the spec: the requested list in effect. *)
Definition effective (requested : list string) : list string :=
  match requested with
  | [] => DEFAULT_PROPERTIES
  | _ => requested
  end.

(** A descriptor whose domain came from a lookup by [failing], with that
    domain emptied; any other descriptor, unchanged. *)
Definition degrade (failing : string) (d : PropertyDescriptor)
    : PropertyDescriptor :=
  if decide (dependentLookup d = Some failing)
  then {| key := key d; label := label d; defaultValue := defaultValue d;
          domain := []; dependentLookup := dependentLookup d |}
  else d.

Section FilterFormBuilder.
(** The lookup source: a collaborator with a state of its own, answering a
    status with an ordered sequence of entries or with an error; of an
    entry the builder reads the id. *)
Context {W App : Type}.
Context (fetch : W → string → notification (list App) * W).
Context (app_id : App → value).

(** Modelled from the spec: step 3 of section 4.2, the domain of a
    descriptor; a failed lookup leaves the empty domain. *)
Definition lookup_domain (w : W) (t : PropertyTemplate) : list value * W :=
  match t_dependentLookup t with
  | None => (t_domain t, w)
  | Some status =>
      match fetch w status with
      | (Next apps, w') => (map app_id apps, w')
      | (Error _, w') => ([], w')
      end
  end.

(** Modelled from the spec: the walk over the keys of section 4.2. *)
Fixpoint build_properties (w : W) (record : gmap string value)
    (keys : list string) (catalog : gmap string PropertyTemplate)
    : (list PropertyDescriptor * gmap string value) * W :=
  match keys with
  | [] => (([], ∅), w)
  | k :: keys' =>
      match catalog !! k with
      | None => build_properties w record keys' catalog
      | Some t =>
          let current := default (t_defaultValue t) (resolve record k) in
          let '(dom, w1) := lookup_domain w t in
          let '((descriptors, form), w2) :=
            build_properties w1 record keys' catalog in
          (({| key := k; label := t_label t;
               defaultValue := t_defaultValue t; domain := dom;
               dependentLookup := t_dependentLookup t |} :: descriptors,
            <[k := current]> form), w2)
      end
  end.

(** Modelled from the spec: [build(record, requested, catalog)], giving the
    descriptor list and the FormState, and the lookup source as the build
    leaves it. *)
Definition build (w : W) (record : gmap string value)
    (requested : list string) (catalog : gmap string PropertyTemplate)
    : (list PropertyDescriptor * gmap string value) * W :=
  build_properties w record (effective requested) catalog.

End FilterFormBuilder.

(** The lookup source that the service makes: its state is the log, and the
    deployment service delivers [response] at every call. *)
Definition deployedApplications {Model : Type}
    (ApplicationInstanceModel : gmap string value → Model)
    (response : notification (list (gmap string value)))
    (log : list exn) (status : string)
    : notification (list Model) * list exn :=
  getDeployedApplicationsByStatus ApplicationInstanceModel response status log.

(** [app.id], what the builder reads of an entry that is an object. *)
Definition entry_id (app : gmap string value) : value :=
  default VUndefined (app !! "id").

(** A lookup source like [deployedApplications], except that the call for
    the status [failing] breaks with [err], which takes the path of
    [handleError]. *)
Definition failing_for (failing : string) (err : exn)
    (response : notification (list (gmap string value)))
    (log : list exn) (status : string)
    : notification (list (gmap string value)) * list exn :=
  if String.eqb status failing then handleError err log
  else deployedApplications (λ app, app) response log status.

(** A catalog for the examples of section 8 of the spec: the defaults of
    the example, drop-downs of the sizes the test suite counts, and an
    application name whose domain is looked up. *)
Definition template (lbl : string) (dflt : value) (dom : list value)
    (lookup : option string) : PropertyTemplate :=
  {| t_label := lbl; t_defaultValue := dflt; t_domain := dom;
     t_dependentLookup := lookup |}.

Definition baseline_catalog : gmap string PropertyTemplate :=
  {[ "state" := template "State" (VStr "RUNNING")
                  [VStr "ALL"; VStr "RUNNING"; VStr "COMPLETED"] None;
     "sort" := template "Sort" (VStr "id")
                  [VStr "id"; VStr "name"; VStr "status"; VStr "startDate"] None;
     "order" := template "Order" (VStr "ASC") [VStr "ASC"; VStr "DESC"] None;
     "appName" := template "Application" (VStr "") [] (Some "RUNNING") ]}.

Definition baseline : Catalog :=
  {| templates := baseline_catalog; canonical := I |}.

(** Modelled from the spec: the FormState of the defaults (section 8). *)
Definition baseline_form : gmap string value :=
  {[ "state" := VStr "RUNNING"; "sort" := VStr "id"; "order" := VStr "ASC" ]}.

(** The record of the test suite (part_000, [fakeFilter]): the object
    literal that the suite hands to the filter model. *)
Definition fakeFilter : gmap string value :=
  {[ "name" := VStr "FakeRunningProcess";
     "icon" := VStr "adjust";
     "id" := VStr "mock-process-filter-id";
     "state" := VStr "RUNNING";
     "appName" := VStr "mock-app-name";
     "processDefinitionId" := VStr "process-def-id";
     "assignment" := VStr "fake-involved";
     "order" := VStr "ASC";
     "sort" := VStr "id" ]}.


(** ** document-list.ts: the component *)

(** [s.toLowerCase()], a character being a code unit below 256: the
    letters A-Z and the capital letters of Latin-1 (all of 192-222 but the
    multiplication sign) move up by 32. *)
Definition toLowerCase_char (c : ascii) : ascii :=
  let n := nat_of_ascii c in
  if ((65 <=? n) && (n <=? 90))
     || ((192 <=? n) && (n <=? 222) && negb (n =? 215))
  then ascii_of_nat (n + 32)
  else c.

Fixpoint toLowerCase (s : string) : string :=
  match s with
  | EmptyString => EmptyString
  | String c rest => String (toLowerCase_char c) (toLowerCase rest)
  end.

Section ContentActions.
(** The action model, whose class is declared in another file: of an
    action the component reads the string fields [target] and [type]. *)
Context {Action : Type} (action_target action_type : Action → string).

(** [getContentActions(target, type)] over the [actions] of the
    component. *)
Definition getContentActions (actions : list Action) (target type : string)
    : list Action :=
  if truthy (VStr target) && truthy (VStr type) then
    let ltarget := toLowerCase target in
    let ltype := toLowerCase type in
    filter (λ entry,
              String.eqb (toLowerCase (action_target entry)) ltarget
              && String.eqb (toLowerCase (action_type entry)) ltype)
           actions
  else [].

End ContentActions.

(** An entry of the breadcrumb route: an object [{name, path}].  The route
    is searched by identity ([indexOf]), so that an entry carries the
    identity of its object; the fields of an entry are never written. *)
Record Route : Type := {
  route_ref : nat;
  route_name : value;
  route_path : value
}.

(** [rootFolder], the one object the component is built with. *)
Definition rootFolder : Route :=
  {| route_ref := 0; route_name := VStr "Company Home";
     route_path := VStr "" |}.

(** [route.indexOf(r)]: the first index that holds the object [r], or -1. *)
Fixpoint indexOf (r : Route) (route : list Route) : Z :=
  match route with
  | [] => -1
  | r' :: route' =>
      if decide (route_ref r' = route_ref r) then 0
      else let idx := indexOf r route' in
           if (idx =? -1)%Z then -1 else (idx + 1)%Z
  end.

Section DocumentListComponent.
(** The Alfresco service, a collaborator with a state of its own:
    [getFolder(path)] delivers a folder or an error, and the delivery is
    taken to arrive before the next call to the component. *)
Context {W Folder : Type}.
Context (getFolder : W → value → notification Folder * W).

(** The fields of the component that its navigation reads and writes;
    [itemClick] is what the emitter was given, [next_ref] the identity of
    the next object to be made. *)
Record DocumentList : Type := {
  navigate : bool;
  breadcrumb : bool;
  currentFolderPath : value;
  folder : option Folder;
  errorMessage : option exn;
  route : list Route;
  itemClick : list value;
  alfrescoService : W;
  next_ref : nat
}.

(** The component as it is constructed, with its two inputs. *)
Definition new_DocumentList (nav bread : bool) (w : W) : DocumentList :=
  {| navigate := nav; breadcrumb := bread; currentFolderPath := VStr "";
     folder := None; errorMessage := None; route := []; itemClick := [];
     alfrescoService := w; next_ref := 1 |}.

Definition set_route (st : DocumentList) (rt : list Route) : DocumentList :=
  {| navigate := navigate st; breadcrumb := breadcrumb st;
     currentFolderPath := currentFolderPath st; folder := folder st;
     errorMessage := errorMessage st; route := rt;
     itemClick := itemClick st; alfrescoService := alfrescoService st;
     next_ref := next_ref st |}.

(** [canNavigateParent()] *)
Definition canNavigateParent (st : DocumentList) : bool :=
  navigate st && negb (breadcrumb st)
  && negb (match currentFolderPath st, route_path rootFolder with
           | VStr a, VStr b => String.eqb a b
           | _, _ => false
           end).

(** [displayFolderContent(path)]: nothing for [null]; else the path
    becomes the current one and the delivery of the service is stored, a
    folder in [folder], an error in [errorMessage]. *)
Definition displayFolderContent (st : DocumentList) (p : value)
    : DocumentList :=
  match p with
  | VNull => st
  | _ =>
      let '(delivery, w) := getFolder (alfrescoService st) p in
      {| navigate := navigate st; breadcrumb := breadcrumb st;
         currentFolderPath := p;
         folder := match delivery with
                   | Next f => Some f
                   | Error _ => folder st
                   end;
         errorMessage := match delivery with
                         | Next _ => errorMessage st
                         | Error e => Some e
                         end;
         route := route st; itemClick := itemClick st;
         alfrescoService := w; next_ref := next_ref st |}
  end.

(** [ngOnInit()] *)
Definition ngOnInit (st : DocumentList) : DocumentList :=
  displayFolderContent (set_route st (route st ++ [rootFolder]))
    (route_path rootFolder).

(** [onNavigateParentClick(e)]; the DOM event, of which only
    [preventDefault] is called, is no part of the component. *)
Definition onNavigateParentClick (st : DocumentList) : DocumentList :=
  if navigate st then
    let popped := removelast (route st) in
    let parent := default rootFolder (last popped) in
    displayFolderContent (set_route st popped) (route_path parent)
  else st.

(** [goToRoute(r, e)] *)
Definition goToRoute (st : DocumentList) (r : Route) : DocumentList :=
  if navigate st then
    let idx := indexOf r (route st) in
    if (idx >? -1)%Z then
      displayFolderContent
        (set_route st (take (Z.to_nat (idx + 1)) (route st)))
        (route_path r)
    else st
  else st.

(** [itemClick.emit({value: item})] *)
Definition emit_itemClick (st : DocumentList) (item : value) : DocumentList :=
  {| navigate := navigate st; breadcrumb := breadcrumb st;
     currentFolderPath := currentFolderPath st; folder := folder st;
     errorMessage := errorMessage st; route := route st;
     itemClick := itemClick st ++ [VObj {[ "value" := item ]}];
     alfrescoService := alfrescoService st; next_ref := next_ref st |}.

(** [route.push({name: ..., path: ...})], the pushed object being new. *)
Definition push_route (st : DocumentList) (name path : value) : DocumentList :=
  {| navigate := navigate st; breadcrumb := breadcrumb st;
     currentFolderPath := currentFolderPath st; folder := folder st;
     errorMessage := errorMessage st;
     route := route st ++ [ {| route_ref := next_ref st; route_name := name;
                               route_path := path |} ];
     itemClick := itemClick st; alfrescoService := alfrescoService st;
     next_ref := S (next_ref st) |}.

(** What [onItemClick] computes before it touches the route: whether the
    item is a folder and, for a folder, its path and its name. *)
Definition folder_target (scope : gmap string value) (item : value)
    : result (option (value * value)) :=
  entry ← get_member item "entry" ;
  isFolder ← get_member entry "isFolder" ;
  if truthy isFolder then
    path ← getNodePath scope item ;
    entry' ← get_member item "entry" ;
    name ← get_member entry' "name" ;
    Ok (Some (name, path))
  else Ok None.

(** [onItemClick(item, e)]: how the call completes, and the component it
    leaves; what was done before an exception stays done. *)
Definition onItemClick (scope : gmap string value) (st : DocumentList)
    (item : value) : result unit * DocumentList :=
  let st := emit_itemClick st item in
  if navigate st && truthy item then
    match folder_target scope item with
    | Throw e => (Throw e, st)
    | Ok None => (Ok (), st)
    | Ok (Some (name, path)) =>
        (Ok (), displayFolderContent (push_route st name path) path)
    end
  else (Ok (), st).

(** What may be asked of the component. *)
Inductive request : Type :=
  | NgOnInit
  | NavigateParentClick
  | ItemClick (item : value)
  | GoToRoute (r : Route).

Definition handle (scope : gmap string value) (st : DocumentList)
    (rq : request) : DocumentList :=
  match rq with
  | NgOnInit => ngOnInit st
  | NavigateParentClick => onNavigateParentClick st
  | ItemClick item => (onItemClick scope st item).2
  | GoToRoute r => goToRoute st r
  end.

Definition handle_all (scope : gmap string value) (st : DocumentList)
    (rqs : list request) : DocumentList :=
  foldl (handle scope) st rqs.

(** The identities of the route are those of objects made so far, one
    identity standing for one object, and identity 0 for [rootFolder]. *)
Definition identities_kept (st : DocumentList) : Prop :=
  0 < next_ref st ∧
  (∀ r, r ∈ route st → route_ref r < next_ref st) ∧
  (∀ r, r ∈ route st → route_ref r = 0 → r = rootFolder) ∧
  (∀ r r', r ∈ route st → r' ∈ route st →
     route_ref r = route_ref r' → r = r').

(** The breadcrumb and the current folder agree: no entry has the path
    [null], and the current path is the path of the last entry, or of
    [rootFolder] when there is none. *)
Definition route_synced (st : DocumentList) : Prop :=
  (∀ r, r ∈ route st → route_path r ≠ VNull) ∧
  currentFolderPath st = route_path (default rootFolder (last (route st))).

End DocumentListComponent.

(** For the examples: a service that delivers, as the folder of a path,
    the path itself, fails on one path, and keeps the paths it was asked
    for; two entries below the root; a component two folders down. *)
Definition echo_service (asked : list value) (p : value)
    : notification value * list value :=
  (match p with
   | VStr "/locked" => Error (Thrown (VStr "403"))
   | _ => Next p
   end, asked ++ [p]).

Definition sites_entry : Route :=
  {| route_ref := 1; route_name := VStr "Sites"; route_path := VStr "/Sites" |}.

Definition docs_entry : Route :=
  {| route_ref := 2; route_name := VStr "docs";
     route_path := VStr "/Sites/docs" |}.

Definition browsing : DocumentList :=
  {| navigate := true; breadcrumb := false;
     currentFolderPath := VStr "/Sites/docs";
     folder := Some (VStr "/Sites/docs"); errorMessage := None;
     route := [rootFolder; sites_entry; docs_entry]; itemClick := [];
     alfrescoService := [VStr ""; VStr "/Sites"; VStr "/Sites/docs"];
     next_ref := 3 |}.

Definition docs_node : value :=
  VObj {[ "entry" := VObj {[ "name" := VStr "docs"; "isFolder" := VBool true;
            "path" := VObj {[ "name" := VStr "/Company Home/Sites" ]} ]} ]}.

(** ** apps-process-cloud.service.ts: [getRunningApplications] *)



(** [getApplicationUrl()], given what the configuration holds for
    ['bpmHost']. *)
Definition getApplicationUrl (bpmHost : value) : string :=
  to_js_string bpmHost +:+ "/alfresco-deployment-service/v1/applications".

Section RunningApplications.
Context {Model : Type} (ApplicationInstanceModel : gmap string value → Model).

(** [getRunningApplications()]: [callCustomApi] stands for the call to the
    deployment service, of which the url and the query parameters vary. *)
Definition getRunningApplications (scope : gmap string value)
    (bpmHost : value)
    (callCustomApi : string → gmap string value →
                     notification (list (gmap string value)))
    (log : list exn)
    : result (notification (list Model) * list exn) :=
  let url := getApplicationUrl bpmHost in
  status ← lookup_ident scope "status" ;
  Ok (match callCustomApi url {[ "status" := status ]} with
      | Next applications =>
          (Next (ApplicationInstanceModel <$> applications), log)
      | Error err => handleError err log
      end).

End RunningApplications.

(** * Properties *)

(** The example of the doc comment of [getObjectValue]. *)
Example getObjectValue_doc :
  getObjectValue
    (OfRecord {[ "item" := VObj {[ "nodeType" := VStr "cm:folder" ]} ]})
    "item.nodeType" = Ok (Data (VStr "cm:folder")).
Proof. vm_compute. reflexivity. Qed.

(** ** Splitting and joining dotted paths *)

Lemma split_dot_nonempty s : split_dot s ≠ [].
Proof.
  induction s as [|c s IH]; simpl; [done|].
  destruct (Ascii.eqb c dot); [done|].
  by destruct (split_dot s).
Qed.

Lemma split_dot_free s : dot_free s → split_dot s = [s].
Proof.
  induction s as [|c s IH]; simpl; [done|].
  intros [Hc Hs]%andb_prop_elim.
  destruct (Ascii.eqb c dot); [done|].
  by rewrite IH.
Qed.

Lemma string_app_nil (s : string) : "" +:+ s = s.
Proof. reflexivity. Qed.

Lemma string_app_cons c (a b : string) : String c a +:+ b = String c (a +:+ b).
Proof. reflexivity. Qed.

Lemma string_app_assoc (a b c : string) : (a +:+ b) +:+ c = a +:+ b +:+ c.
Proof.
  induction a as [|x a IH]; [done|].
  by rewrite !string_app_cons, IH.
Qed.

Lemma split_dot_append seg rest :
  dot_free seg → split_dot (seg +:+ String dot rest) = seg :: split_dot rest.
Proof.
  induction seg as [|c seg IH].
  - by intros _.
  - rewrite string_app_cons. simpl. intros [Hc Hs]%andb_prop_elim.
    destruct (Ascii.eqb c dot); [done|].
    by rewrite IH.
Qed.

Lemma join_dot_cons seg seg' rest :
  join_dot (seg :: seg' :: rest) = seg +:+ String dot (join_dot (seg' :: rest)).
Proof. reflexivity. Qed.

Lemma split_join_dot segs :
  segs ≠ [] → Forall (λ s, dot_free s) segs → split_dot (join_dot segs) = segs.
Proof.
  induction segs as [|seg rest IH]; [done|].
  intros _ Hfree. apply Forall_cons in Hfree as [Hseg Hrest].
  destruct rest as [|seg' rest].
  - by apply split_dot_free.
  - rewrite join_dot_cons, split_dot_append by done.
    by rewrite IH.
Qed.

(** ** [getObjectValue] *)

(** The last round of the loop returns what the property read gives. *)
Lemma getObjectValue_loop_last target key k :
  getObjectValue_loop target key k [] = read_property target (key +:+ k).
Proof.
  simpl. by destruct (read_property target (key +:+ k)) as [[[]| |]|].
Qed.

(** A round that finds an object descends into it and starts a new key. *)
Lemma getObjectValue_loop_descend fields key k k' rest inner :
  fields !! (key +:+ k) = Some (VObj inner) →
  getObjectValue_loop (OfRecord fields) key k (k' :: rest) =
    getObjectValue_loop (OfRecord inner) "" k' rest.
Proof. intros Hk. simpl. by rewrite Hk. Qed.

(** A round that finds no object, and has segments left, keeps the target
    and grows the key. *)
Lemma getObjectValue_loop_retry target key k k' rest :
  reads_no_object target (key +:+ k) →
  getObjectValue_loop target key k (k' :: rest) =
    getObjectValue_loop target ((key +:+ k) +:+ ".") k' rest.
Proof.
  intros (value & Hread & Hobject). simpl. rewrite Hread. simpl.
  by rewrite Hobject, andb_false_r.
Qed.

(** A key that names neither an own property nor an inherited member
    reads as [undefined]. *)
Lemma read_property_missing fields key :
  fields !! key = None →
  inherited_name key = false →
  read_property (OfRecord fields) key = Ok (Data VUndefined).
Proof.
  intros Hown [Hproto Hfun]%orb_false_elim. simpl.
  unfold inherited_member. by rewrite Hown, Hproto, Hfun.
Qed.

(** A key the record lacks, other than [__proto__], reads as no object. *)
Lemma reads_no_object_missing fields key :
  fields !! key = None →
  key ≠ "__proto__" →
  reads_no_object (OfRecord fields) key.
Proof.
  intros Hown Hproto%String.eqb_neq. eexists. split.
  - simpl. by rewrite Hown.
  - unfold inherited_member. rewrite Hproto. by case_bool_decide.
Qed.

Lemma getObjectValue_loop_stored rest : ∀ record k leaf,
  value_at record (k :: rest) = Some leaf →
  getObjectValue_loop (OfRecord record) "" k rest = Ok (Data leaf).
Proof.
  induction rest as [|k' rest IH]; intros record k leaf Hat.
  - rewrite getObjectValue_loop_last, string_app_nil. simpl in *.
    by rewrite Hat.
  - simpl in Hat.
    destruct (record !! k) as [[| | | | |inner]|] eqn:Hk; try done.
    rewrite (getObjectValue_loop_descend _ _ _ _ _ inner)
      by by rewrite string_app_nil.
    by apply IH.
Qed.

(** C1. For every record and every dotted path whose segments are all
    present in the record, each segment but the last leading to an object
    and the last one to a value, [getObjectValue] returns exactly the value
    stored at that path. *)
Theorem getObjectValue_present_path record segs leaf :
  Forall (λ s, dot_free s) segs →
  value_at record segs = Some leaf →
  getObjectValue (OfRecord record) (join_dot segs) = Ok (Data leaf).
Proof.
  intros Hfree Hat. unfold getObjectValue.
  destruct segs as [|k rest]; [done|].
  rewrite split_join_dot by done.
  by apply getObjectValue_loop_stored.
Qed.

Lemma getObjectValue_present_path_witness :
  getObjectValue
    (OfRecord
       {[ "item" := VObj {[ "entry" := VObj {[ "isFolder" := VBool false ]} ]} ]})
    "item.entry.isFolder" = Ok (Data (VBool false)).
Proof.
  apply (getObjectValue_present_path _ ["item"; "entry"; "isFolder"]).
  - repeat constructor.
  - vm_compute. reflexivity.
Defined.

(** C2. The claim that [getObjectValue] never raises fails where a [null]
    is stored on the way: [typeof null] is ['object'], the loop descends
    into it, and the next property read raises a TypeError. *)
Theorem getObjectValue_null_intermediate_raises :
  getObjectValue (OfRecord {[ "a" := VNull ]}) "a.b" = Throw TypeError.
Proof. vm_compute. reflexivity. Qed.

(** A primitive met on the way does not raise: the key grows and the
    compound key, absent here, gives [undefined]. *)
Example getObjectValue_primitive_intermediate :
  getObjectValue (OfRecord {[ "a" := VNum 0 ]}) "a.b" = Ok (Data VUndefined).
Proof. vm_compute. reflexivity. Qed.

(** C3, as the code has it. For every record, the empty path is the one
    empty segment: [getObjectValue] reads the property whose name is the
    empty string and returns it, [undefined] when the record has none. *)
Theorem getObjectValue_empty_path record :
  getObjectValue (OfRecord record) ""
  = Ok (Data (default VUndefined (record !! ""))).
Proof.
  change (getObjectValue (OfRecord record) "")
    with (getObjectValue_loop (OfRecord record) "" "" []).
  rewrite getObjectValue_loop_last, string_app_nil. simpl.
  by destruct (record !! "").
Qed.

(** C3, as stated, fails: the empty path does not give the record back. *)
Lemma getObjectValue_empty_path_not_identity :
  getObjectValue (OfRecord {[ "a" := VNum 1 ]}) ""
    ≠ Ok (Data (VObj {[ "a" := VNum 1 ]})).
Proof. vm_compute. discriminate. Qed.

Lemma prefix_key_snoc pre k : prefix_key pre +:+ k = join_dot (pre ++ [k]).
Proof.
  destruct pre as [|p pre]; [done|]. revert p.
  induction pre as [|q pre IH]; intros p.
  - simpl. by rewrite string_app_assoc.
  - specialize (IH q). simpl prefix_key in *.
    rewrite <- !app_comm_cons, !join_dot_cons.
    rewrite <- app_comm_cons in IH. rewrite <- IH.
    by rewrite !string_app_assoc.
Qed.

Lemma prefix_key_next pre k :
  (prefix_key pre +:+ k) +:+ "." = prefix_key (pre ++ [k]).
Proof.
  rewrite prefix_key_snoc. by destruct pre.
Qed.

(** The rounds that find no object under the joined segments carry them
    on: after the segments [k :: mids], none of whose joins read as an
    object, the loop reads the next segment behind their compound key. *)
Lemma getObjectValue_loop_carry target mids : ∀ front k k' rest,
  (∀ n, n ≤ length mids →
     reads_no_object target (join_dot (front ++ take (S n) (k :: mids)))) →
  getObjectValue_loop target (prefix_key front) k (mids ++ k' :: rest)
  = getObjectValue_loop target (prefix_key (front ++ k :: mids)) k' rest.
Proof.
  induction mids as [|m mids IH]; intros front k k' rest Hpass.
  - simpl app. rewrite getObjectValue_loop_retry.
    + by rewrite prefix_key_next.
    + rewrite prefix_key_snoc. apply (Hpass 0). simpl. lia.
  - rewrite <- app_comm_cons. rewrite getObjectValue_loop_retry.
    + rewrite prefix_key_next. rewrite IH.
      * by rewrite <- app_assoc.
      * intros n Hn. rewrite <- app_assoc.
        apply (Hpass (S n)). simpl. lia.
    + rewrite prefix_key_snoc. apply (Hpass 0). simpl. lia.
Qed.

(** The round that the loop reaches once it has consumed a compound key
    whose proper prefixes read as no object. *)
Lemma getObjectValue_loop_compound target pre last rest :
  (∀ n, 0 < n ≤ length pre →
     reads_no_object target (join_dot (take n (pre ++ [last])))) →
  ∃ k mids,
    pre ++ [last] = k :: mids ∧
    getObjectValue_loop target "" k (mids ++ rest)
    = getObjectValue_loop target (prefix_key pre) last rest.
Proof.
  intros Hpass. destruct pre as [|k mids].
  - by exists last, [].
  - exists k, (mids ++ [last]). split; [done|].
    rewrite <- app_assoc. simpl app.
    apply (getObjectValue_loop_carry target mids [] k last rest).
    intros n Hn. simpl app.
    specialize (Hpass (S n)).
    rewrite <- app_comm_cons in Hpass.
    change (take (S n) (k :: mids ++ [last]))
      with (k :: take n (mids ++ [last])) in Hpass.
    rewrite take_app_le in Hpass by lia. apply Hpass. simpl. lia.
Qed.

(** The compound key, in general: when no proper prefix of the segments
    [pre], joined with dots, reads as an object of the record, the loop
    carries the segments on and reads them as one key. *)
Lemma getObjectValue_carried_key record pre :
  pre ≠ [] →
  Forall (λ s, dot_free s) pre →
  (∀ n, 0 < n < length pre →
     reads_no_object (OfRecord record) (join_dot (take n pre))) →
  (∀ v, record !! join_dot pre = Some v →
     getObjectValue (OfRecord record) (join_dot pre) = Ok (Data v)) ∧
  (∀ inner post,
     post ≠ [] →
     Forall (λ s, dot_free s) post →
     record !! join_dot pre = Some (VObj inner) →
     getObjectValue (OfRecord record) (join_dot (pre ++ post))
     = getObjectValue (OfRecord inner) (join_dot post)).
Proof.
  intros Hpre Hfree Hpass.
  destruct pre as [|last front _] using rev_ind; [done|]. clear Hpre.
  assert (∀ rest, ∃ k mids,
    front ++ [last] = k :: mids ∧
    getObjectValue_loop (OfRecord record) "" k (mids ++ rest)
    = getObjectValue_loop (OfRecord record) (prefix_key front) last rest)
    as Hround.
  { intros rest. apply getObjectValue_loop_compound.
    intros n Hn. apply Hpass. rewrite length_app. simpl. lia. }
  split.
  - intros v Hv. unfold getObjectValue.
    rewrite split_join_dot by (done || by destruct front).
    destruct (Hround []) as (k & mids & -> & Hloop).
    rewrite app_nil_r in Hloop. rewrite Hloop.
    rewrite getObjectValue_loop_last, prefix_key_snoc. simpl.
    by rewrite Hv.
  - intros inner post Hpost Hfree' Hinner. unfold getObjectValue.
    rewrite (split_join_dot post) by done.
    rewrite (split_join_dot ((front ++ [last]) ++ post));
      [|by destruct front|by apply Forall_app].
    destruct post as [|k' rest]; [done|].
    destruct (Hround (k' :: rest)) as (k & mids & Hsplit & Hloop).
    rewrite Hsplit. rewrite <- app_comm_cons. rewrite Hloop.
    apply getObjectValue_loop_descend. by rewrite prefix_key_snoc.
Qed.

(** C10, as the code has it. When no proper prefix of the segments consumed
    so far, joined with dots, reads as an object of the current record (it
    names no property, or a value that is not an object), [getObjectValue]
    has carried these segments on and reads them as one compound key: a
    value stored under the compound key is what the path gives when it ends
    there, and an object stored under it is where the rest of the path is
    resolved.  Hence every record that lacks the key ['a'] and stores a
    value under the key ['a.b'] gives that value for the path ['a.b']. *)
Theorem getObjectValue_compound_key record :
  (∀ pre,
     pre ≠ [] →
     Forall (λ s, dot_free s) pre →
     (∀ n, 0 < n < length pre →
        reads_no_object (OfRecord record) (join_dot (take n pre))) →
     (∀ v, record !! join_dot pre = Some v →
        getObjectValue (OfRecord record) (join_dot pre) = Ok (Data v)) ∧
     (∀ inner post,
        post ≠ [] →
        Forall (λ s, dot_free s) post →
        record !! join_dot pre = Some (VObj inner) →
        getObjectValue (OfRecord record) (join_dot (pre ++ post))
        = getObjectValue (OfRecord inner) (join_dot post))) ∧
  (∀ v, record !! "a" = None → record !! "a.b" = Some v →
     getObjectValue (OfRecord record) "a.b" = Ok (Data v)).
Proof.
  split; [apply getObjectValue_carried_key|].
  intros v Ha Hab.
  apply (getObjectValue_carried_key record ["a"; "b"]); [done| | |done].
  - repeat constructor.
  - intros n Hn. simpl in Hn. assert (n = 1) as -> by lia.
    by apply reads_no_object_missing.
Qed.

Lemma getObjectValue_compound_key_witness :
  getObjectValue (OfRecord {[ "a.b" := VStr "literal" ]}) "a.b"
    = Ok (Data (VStr "literal")) ∧
  getObjectValue (OfRecord {[ "a.b" := VObj {[ "c" := VNum 1 ]} ]}) "a.b.c"
    = getObjectValue (OfRecord {[ "c" := VNum 1 ]}) "c".
Proof.
  split.
  - apply (proj2 (getObjectValue_compound_key {[ "a.b" := VStr "literal" ]}));
      by vm_compute.
  - refine (proj2 (proj1 (getObjectValue_compound_key
                            {[ "a.b" := VObj {[ "c" := VNum 1 ]} ]})
                     ["a"; "b"] _ _ _)
                  {[ "c" := VNum 1 ]} ["c"] _ _ _).
    + done.
    + repeat constructor.
    + intros n Hn. simpl in Hn. assert (n = 1) as -> by lia.
      by apply reads_no_object_missing.
    + done.
    + repeat constructor.
    + by vm_compute.
Defined.

(** The same holds inside a record reached by descent. *)
Example getObjectValue_compound_key_below :
  getObjectValue (OfRecord {[ "x" := VObj {[ "a.b" := VNum 1 ]} ]}) "x.a.b"
  = Ok (Data (VNum 1)).
Proof. by vm_compute. Qed.

(** C10, as stated, fails at the one prefix that every record inherits as
    an object: a record that lacks [__proto__] as a key is read there at
    [Object.prototype], the loop descends, and the value stored under the
    compound key is not found. *)
Lemma getObjectValue_proto_prefix :
  ({[ "__proto__.b" := VStr "literal" ]} : gmap string value) !! "__proto__"
    = None ∧
  getObjectValue (OfRecord {[ "__proto__.b" := VStr "literal" ]})
    "__proto__.b"
  ≠ Ok (Data (VStr "literal")).
Proof. split; [by vm_compute|]. vm_compute. discriminate. Qed.

(** The member names that the component writes out in its member reads,
    which [get_member] serves, are names of no inherited member: there
    the read of own properties is the whole read. *)
Lemma get_member_read fields key :
  inherited_name key = false →
  ∃ v, get_member (VObj fields) key = Ok v ∧
       read_property (OfRecord fields) key = Ok (Data v).
Proof.
  intros Hkey. simpl. destruct (fields !! key) as [v|] eqn:Hown.
  - by exists v.
  - exists VUndefined. split; [done|].
    pose proof (read_property_missing fields key Hown Hkey) as Hread.
    simpl in Hread. by rewrite Hown in Hread.
Qed.

Lemma written_members_not_inherited :
  Forall (λ key, inherited_name key = false) written_members.
Proof. repeat constructor. Qed.

(** ** [getNodePath] *)

Lemma item_unbound : "item" ∉ (getNodePath_locals ++ module_identifiers).
Proof. apply (bool_decide_unpack _). vm_compute. exact I. Qed.

(** C9. For every non-null (truthy) node, [getNodePath] reads [item], a
    name that neither the function nor the module binds, and not its
    parameter: where nothing else binds [item] the call ends in a
    ReferenceError, and in any case the result owes nothing to the fields
    of the node, being the same for every other truthy node. *)
Theorem getNodePath_reads_unbound_item scope node :
  truthy node →
  ("item" ∉ (getNodePath_locals ++ module_identifiers)) ∧
  (scope !! "item" = None →
     getNodePath scope node = Throw (ReferenceError "item")) ∧
  (∀ node', truthy node' → getNodePath scope node' = getNodePath scope node).
Proof.
  intros Hnode. split; [exact item_unbound|]. split.
  - intros Hitem. unfold getNodePath, lookup_ident.
    destruct (truthy node); [|done]. by rewrite Hitem.
  - intros node' Hnode'. unfold getNodePath.
    by destruct (truthy node), (truthy node').
Qed.

Lemma getNodePath_reads_unbound_item_witness :
  getNodePath ∅
    (VObj {[ "entry" := VObj {[ "name" := VStr "docs"; "isFolder" := VBool true;
               "path" := VObj {[ "name" := VStr "/Company Home/Sites" ]} ]} ]})
  = Throw (ReferenceError "item").
Proof.
  refine (proj1 (proj2 (getNodePath_reads_unbound_item ∅ _ _)) _).
  - vm_compute. exact I.
  - reflexivity.
Defined.

(** A null node takes the other branch. *)
Example getNodePath_null scope : getNodePath scope VNull = Ok VNull.
Proof. reflexivity. Qed.

(** Were [item] bound outside, the path would be made of its fields. *)
Example getNodePath_ambient_item :
  getNodePath
    {[ "item" := VObj {[ "entry" := VObj {[ "name" := VStr "docs";
          "path" := VObj {[ "name" := VStr "/Company Home/Sites" ]} ]} ]} ]}
    (VObj {[ "entry" := VObj {[ "name" := VStr "other" ]} ]})
  = Ok (VStr "/Sites/docs").
Proof. vm_compute. reflexivity. Qed.

(** ** [getDeployedApplicationsByStatus] *)

Lemma status_is_spec status (app : gmap string value) :
  status_is status app ↔ app !! "status" = Some (VStr status).
Proof.
  unfold status_is, strict_eq_string.
  destruct (app !! "status") as [[| | | |s|]|]; simpl; try by split.
  rewrite Is_true_true, String.eqb_eq.
  split; [by intros ->|by intros [= ->]].
Qed.

(** Among the sublists of [l] made of elements satisfying [P], the
    filtered list is the greatest. *)
Lemma sublist_filter_greatest {A} (P : A → Prop) `{!∀ x, Decision (P x)}
    (l' l : list A) :
  l' `sublist_of` l → Forall P l' → l' `sublist_of` filter P l.
Proof.
  induction 1 as [|x l1 l2 Hsub IH|x l1 l2 Hsub IH]; intros Hall.
  - constructor.
  - apply Forall_cons in Hall as [Hx Hall].
    rewrite filter_cons_True by done. constructor. by apply IH.
  - rewrite filter_cons. destruct (decide (P x)); [constructor|]; by apply IH.
Qed.

Section AppsProcessCloudService_properties.
Context {Model : Type} (ApplicationInstanceModel : gmap string value → Model).

(** C8. For every status and every sequence of applications the
    deployment service delivers, [getDeployedApplicationsByStatus] delivers
    the models of a selection of them that keeps their order (a sublist),
    holds exactly the applications whose [status] is the given string, and
    drops no occurrence of them (it is the greatest such sublist); nothing
    is logged. *)
Theorem getDeployedApplicationsByStatus_selects status apps log :
  ∃ selected,
    getDeployedApplicationsByStatus ApplicationInstanceModel
      (Next apps) status log
      = (Next (ApplicationInstanceModel <$> selected), log) ∧
    selected `sublist_of` apps ∧
    (∀ app, app ∈ selected ↔
       app ∈ apps ∧ app !! "status" = Some (VStr status)) ∧
    (∀ others, others `sublist_of` apps →
       Forall (λ app, app !! "status" = Some (VStr status)) others →
       others `sublist_of` selected).
Proof.
  exists (filter (λ app, status_is status app) apps).
  split; [done|]. split; [apply sublist_filter|]. split.
  - intros app. rewrite list_elem_of_filter, status_is_spec. tauto.
  - intros others Hsub Hall. apply sublist_filter_greatest; [done|].
    eapply Forall_impl; [exact Hall|]. intros app. by rewrite status_is_spec.
Qed.

(** The failing call: [handleError] logs the error and delivers it again,
    a falsy one as ['Server error']. *)
Lemma getDeployedApplicationsByStatus_error err status log :
  getDeployedApplicationsByStatus ApplicationInstanceModel
    (Error err) status log
  = (Error (if exn_truthy err then err else Thrown (VStr "Server error")),
     log ++ [err]).
Proof. reflexivity. Qed.

End AppsProcessCloudService_properties.

Example getDeployedApplicationsByStatus_running :
  getDeployedApplicationsByStatus (λ app, app)
    (Next [ {[ "name" := VStr "a1"; "status" := VStr "RUNNING" ]};
            {[ "name" := VStr "a2"; "status" := VStr "PENDING" ]};
            {[ "name" := VStr "a3"; "status" := VStr "RUNNING" ]};
            {[ "name" := VStr "a4" ]} ])
    "RUNNING" []
  = (Next [ {[ "name" := VStr "a1"; "status" := VStr "RUNNING" ]};
            {[ "name" := VStr "a3"; "status" := VStr "RUNNING" ]} ], []).
Proof. vm_compute. reflexivity. Qed.

(** ** The filter form builder *)

(** On a key without dots the resolver is the property read. *)
Lemma resolve_dot_free record k :
  dot_free k →
  resolve record k
  = record !! k ≫= λ v, if is_defined v then Some v else None.
Proof.
  intros Hk. unfold resolve, getObjectValue.
  rewrite split_dot_free by done.
  rewrite getObjectValue_loop_last, string_app_nil. simpl.
  destruct (record !! k) as [v|]; [done|].
  unfold inherited_member.
  destruct (String.eqb k "__proto__"); [done|]. by case_bool_decide.
Qed.

Section FilterFormBuilder_properties.
Context {W App : Type} (app_id : App → value).
Implicit Types fetch fetch_ko fetch_ok :
  W → string → notification (list App) * W.
Implicit Types (record : gmap string value) (keys requested : list string).
Implicit Types catalog : gmap string PropertyTemplate.

(** Unfolding of one step of the walk, on a key the catalog knows. *)
Lemma build_properties_known fetch w record k keys catalog t :
  catalog !! k = Some t →
  build_properties fetch app_id w record (k :: keys) catalog
  = let dw := lookup_domain fetch app_id w t in
    let rest := build_properties fetch app_id dw.2 record keys catalog in
    (({| key := k; label := t_label t; defaultValue := t_defaultValue t;
         domain := dw.1; dependentLookup := t_dependentLookup t |}
        :: rest.1.1,
      <[k := default (t_defaultValue t) (resolve record k)]> rest.1.2),
     rest.2).
Proof.
  intros Hk. simpl. rewrite Hk.
  destruct (lookup_domain fetch app_id w t) as [dom w1]. simpl.
  by destruct (build_properties fetch app_id w1 record keys catalog)
    as [[descriptors form] w2].
Qed.

Lemma build_properties_unknown fetch w record k keys catalog :
  catalog !! k = None →
  build_properties fetch app_id w record (k :: keys) catalog
  = build_properties fetch app_id w record keys catalog.
Proof. intros Hk. simpl. by rewrite Hk. Qed.

(** The descriptors are those of the keys the catalog knows, in order. *)
Lemma build_properties_keys fetch keys : ∀ w record catalog,
  key <$> (build_properties fetch app_id w record keys catalog).1.1
  = filter (λ k, is_Some (catalog !! k)) keys.
Proof.
  induction keys as [|k keys IH]; intros w record catalog; [done|].
  destruct (catalog !! k) as [t|] eqn:Hk.
  - rewrite (build_properties_known _ _ _ _ _ _ t) by done. simpl.
    rewrite filter_cons_True by (by rewrite Hk). by rewrite IH.
  - rewrite build_properties_unknown by done.
    rewrite filter_cons_False by (rewrite Hk; by intros [? ?]). apply IH.
Qed.

(** The FormState holds, for each of those keys, the resolved value, or
    the default of the template where the record resolves none. *)
Lemma build_properties_form fetch keys : ∀ w record catalog k,
  (build_properties fetch app_id w record keys catalog).1.2 !! k
  = if decide (k ∈ keys)
    then (λ t, default (t_defaultValue t) (resolve record k)) <$> catalog !! k
    else None.
Proof.
  induction keys as [|k' keys IH]; intros w record catalog k.
  - change ((∅ : gmap string value) !! k = if decide (k ∈ []) then
        (λ t, default (t_defaultValue t) (resolve record k)) <$> catalog !! k
      else None).
    rewrite lookup_empty. by rewrite decide_False by apply not_elem_of_nil.
  - destruct (catalog !! k') as [t|] eqn:Hk'.
    + rewrite (build_properties_known _ _ _ _ _ _ t) by done. simpl.
      destruct (decide (k' = k)) as [->|Hne].
      * rewrite lookup_insert_eq, decide_True by left. by rewrite Hk'.
      * rewrite lookup_insert_ne, IH by done.
        destruct (decide (k ∈ keys)).
        -- by rewrite decide_True by by right.
        -- by rewrite decide_False
             by (intros [?|?]%elem_of_cons; [congruence|done]).
    + rewrite build_properties_unknown, IH by done.
      destruct (decide (k = k')) as [->|Hne].
      * rewrite Hk', (decide_True (P := k' ∈ k' :: keys)) by left.
        by destruct (decide (k' ∈ keys)).
      * destruct (decide (k ∈ keys)).
        -- by rewrite decide_True by by right.
        -- by rewrite decide_False
             by (intros [?|?]%elem_of_cons; [congruence|done]).
Qed.

(** C6. For every requested list with at least one key the catalog lacks,
    [build] skips the unknown keys and nothing else: the descriptors are
    those of the requested keys found in the catalog, in requested order,
    strictly fewer than the requested keys, and the FormState has an entry
    for exactly those keys. *)
Theorem build_skips_unknown_keys fetch w record requested catalog :
  (∃ k, k ∈ requested ∧ catalog !! k = None) →
  let out := (build fetch app_id w record requested catalog).1 in
  key <$> out.1 = filter (λ k, is_Some (catalog !! k)) requested ∧
  length out.1 < length requested ∧
  (∀ k, is_Some (out.2 !! k) ↔ k ∈ requested ∧ is_Some (catalog !! k)).
Proof.
  intros (unknown & Hin & Hunknown). simpl.
  assert (effective requested = requested) as Heff
    by (destruct requested; [by apply elem_of_nil in Hin|done]).
  unfold build. rewrite Heff.
  pose proof (build_properties_keys fetch requested w record catalog) as Hkeys.
  split; [done|]. split.
  - rewrite <- (length_fmap key), Hkeys.
    apply (length_filter_lt _ _ unknown); [done|].
    rewrite Hunknown. by intros [? ?].
  - intros k. rewrite build_properties_form.
    destruct (decide (k ∈ requested)); [|by split; [intros [? ?]|intros [? ?]]].
    rewrite fmap_is_Some. tauto.
Qed.

(** A failed lookup leaves the empty domain; any other lookup, and no
    lookup, give what they give without the failure. *)
Lemma lookup_domain_failure fetch_ko fetch_ok failing w w' t :
  (∀ w, ∃ e, (fetch_ko w failing).1 = Error e) →
  (∀ w w' status, status ≠ failing →
     (fetch_ko w status).1 = (fetch_ok w' status).1) →
  (lookup_domain fetch_ko app_id w t).1
  = if decide (t_dependentLookup t = Some failing) then []
    else (lookup_domain fetch_ok app_id w' t).1.
Proof.
  intros Hfail Hsame. unfold lookup_domain.
  destruct (t_dependentLookup t) as [status|]; [|done].
  destruct (decide (status = failing)) as [->|Hne].
  - rewrite decide_True by done.
    destruct (Hfail w) as [e He].
    destruct (fetch_ko w failing) as [n w1]. simpl in He. by subst n.
  - rewrite decide_False by congruence.
    specialize (Hsame w w' status Hne).
    destruct (fetch_ko w status) as [n w1], (fetch_ok w' status) as [n' w1'].
    simpl in Hsame. subst n'. by destruct n.
Qed.

Lemma build_properties_failure fetch_ko fetch_ok failing :
  (∀ w, ∃ e, (fetch_ko w failing).1 = Error e) →
  (∀ w w' status, status ≠ failing →
     (fetch_ko w status).1 = (fetch_ok w' status).1) →
  ∀ keys w w' record catalog,
    (build_properties fetch_ko app_id w record keys catalog).1.1
    = degrade failing
        <$> (build_properties fetch_ok app_id w' record keys catalog).1.1 ∧
    (build_properties fetch_ko app_id w record keys catalog).1.2
    = (build_properties fetch_ok app_id w' record keys catalog).1.2.
Proof.
  intros Hfail Hsame keys.
  induction keys as [|k keys IH]; intros w w' record catalog; [done|].
  destruct (catalog !! k) as [t|] eqn:Hk.
  - rewrite !(build_properties_known _ _ _ _ _ _ t) by done. simpl.
    destruct (IH (lookup_domain fetch_ko app_id w t).2
                 (lookup_domain fetch_ok app_id w' t).2 record catalog)
      as [-> ->].
    split; [|done]. f_equal.
    rewrite (lookup_domain_failure fetch_ko fetch_ok failing w w') by done.
    unfold degrade. simpl. by destruct (decide _).
  - rewrite !build_properties_unknown by done. apply IH.
Qed.

(** C7. When the dependent lookup of one property fails, [build] still
    delivers its result, which holds no error: compared with a build whose
    lookup source gives the same data and does not fail there, the
    descriptors are the same, in the same order, except that those whose
    domain depends on the failed lookup have the empty domain, and the
    FormState is the same. *)
Theorem build_isolates_lookup_failure fetch_ko fetch_ok failing
    w w' record requested catalog :
  (∀ w, ∃ e, (fetch_ko w failing).1 = Error e) →
  (∀ w w' status, status ≠ failing →
     (fetch_ko w status).1 = (fetch_ok w' status).1) →
  let out_ko := (build fetch_ko app_id w record requested catalog).1 in
  let out_ok := (build fetch_ok app_id w' record requested catalog).1 in
  out_ko.1 = degrade failing <$> out_ok.1 ∧
  out_ko.2 = out_ok.2 ∧
  (∀ i d, out_ko.1 !! i = Some d →
     dependentLookup d = Some failing → domain d = []) ∧
  (∀ i d, out_ok.1 !! i = Some d →
     dependentLookup d ≠ Some failing → out_ko.1 !! i = Some d).
Proof.
  intros Hfail Hsame. simpl. unfold build.
  destruct (build_properties_failure fetch_ko fetch_ok failing Hfail Hsame
              (effective requested) w w' record catalog) as [Hdesc Hform].
  split; [done|]. split; [done|]. rewrite Hdesc. split.
  - intros i d [d' [-> Hd']]%list_lookup_fmap_Some.
    unfold degrade. destruct (decide _) as [Hdep|Hdep]; [done|].
    by intros ?.
  - intros i d Hd Hdep. rewrite list_lookup_fmap, Hd. simpl.
    unfold degrade. by rewrite decide_False.
Qed.

(** A catalog knows the built-in default properties. *)
Lemma Catalog_defaults (catalog : Catalog) k :
  k ∈ DEFAULT_PROPERTIES → is_Some (templates catalog !! k).
Proof.
  intros Hk. pose proof (canonical catalog) as Hall.
  apply forallb_True in Hall. rewrite Forall_forall in Hall.
  apply (bool_decide_unpack _). by apply Hall.
Qed.

(** C4, as the builder has it. For every record and catalog, [build] with
    an empty requested list delivers the descriptors of exactly [state],
    [sort] and [order], in that order, so the form is not empty.  With the
    defaults RUNNING, id and ASC in the catalog, the FormState is
    [{state: 'RUNNING', sort: 'id', order: 'ASC'}] exactly when the record
    stores under none of the three keys a value other than [undefined] and
    that default: a value the record stores goes before the default. *)
Theorem build_default_properties fetch w record (catalog : Catalog) :
  let out := (build fetch app_id w record [] catalog).1 in
  key <$> out.1 = ["state"; "sort"; "order"] ∧
  length out.1 = 3 ∧
  ((∀ k, k ∈ DEFAULT_PROPERTIES →
      t_defaultValue <$> templates catalog !! k = baseline_form !! k) →
   (out.2 = baseline_form ↔
    ∀ k v, k ∈ DEFAULT_PROPERTIES → record !! k = Some v →
      v = VUndefined ∨ baseline_form !! k = Some v)).
Proof.
  simpl. unfold build. simpl effective.
  pose proof (build_properties_keys fetch DEFAULT_PROPERTIES w record catalog)
    as Hkeys.
  assert (filter (λ k, is_Some (templates catalog !! k)) DEFAULT_PROPERTIES
          = DEFAULT_PROPERTIES) as Hall.
  { pose proof (Catalog_defaults catalog) as Hknown.
    unfold DEFAULT_PROPERTIES in *.
    rewrite !filter_cons_True; [done|apply Hknown..];
      apply (bool_decide_unpack _); vm_compute; exact I. }
  rewrite Hall in Hkeys. split; [done|]. split.
  { by rewrite <- (length_fmap key), Hkeys. }
  clear Hkeys Hall. intros Hdefaults.
  assert (∀ k, k ∈ DEFAULT_PROPERTIES → dot_free k) as Hfree.
  { intros k Hk. unfold DEFAULT_PROPERTIES in Hk.
    repeat (apply elem_of_cons in Hk as [->|Hk]; [done|]).
    by apply elem_of_nil in Hk. }
  assert (∀ k, k ∉ DEFAULT_PROPERTIES → baseline_form !! k = None) as Hother.
  { intros k Hk. unfold baseline_form, DEFAULT_PROPERTIES in *.
    rewrite !lookup_insert_ne, lookup_singleton_ne;
      [done|intros <-; apply Hk..];
      apply (bool_decide_unpack _); vm_compute; exact I. }
  assert (∀ k, k ∈ DEFAULT_PROPERTIES →
    (build_properties fetch app_id w record DEFAULT_PROPERTIES catalog).1.2
      !! k
    = (λ d, default d (record !! k ≫= λ v,
                         if is_defined v then Some v else None))
        <$> baseline_form !! k) as Hform.
  { intros k Hk. rewrite build_properties_form, decide_True by done.
    rewrite resolve_dot_free by auto. rewrite <- (Hdefaults k Hk).
    by destruct (templates catalog !! k). }
  split.
  - intros Hout k v Hk Hv. specialize (Hform k Hk).
    rewrite Hout, Hv in Hform.
    destruct (Catalog_defaults catalog k Hk) as [t Ht].
    specialize (Hdefaults k Hk). rewrite Ht in Hdefaults.
    rewrite <- Hdefaults in Hform |- *. simpl in Hform |- *.
    destruct v; simpl in Hform; auto.
  - intros Hstored. apply map_eq. intros k.
    destruct (decide (k ∈ DEFAULT_PROPERTIES)) as [Hk|Hk].
    + rewrite Hform by done.
      destruct (record !! k) as [v|] eqn:Hv;
        [|by destruct (baseline_form !! k)].
      destruct (Hstored k v Hk Hv) as [->|Hsame];
        [by destruct (baseline_form !! k)|].
      rewrite Hsame. simpl. by destruct (is_defined v).
    + rewrite build_properties_form, decide_False by done.
      by rewrite Hother.
Qed.

End FilterFormBuilder_properties.

(** *** The builder at concrete inputs *)

Lemma build_default_properties_witness :
  let out :=
    (build (deployedApplications (λ app, app) (Next [])) entry_id
       [] fakeFilter [] baseline).1 in
  key <$> out.1 = ["state"; "sort"; "order"] ∧
  out.2 = baseline_form.
Proof.
  destruct (build_default_properties entry_id
              (deployedApplications (λ app, app) (Next []))
              [] fakeFilter baseline)
    as (Hkeys & _ & Hform).
  split; [exact Hkeys|].
  apply Hform.
  - intros k Hk. unfold DEFAULT_PROPERTIES in Hk.
    repeat (apply elem_of_cons in Hk as [->|Hk]; [reflexivity|]).
    by apply elem_of_nil in Hk.
  - intros k v Hk Hv. right. rewrite <- Hv.
    unfold DEFAULT_PROPERTIES in Hk.
    repeat (apply elem_of_cons in Hk as [->|Hk]; [reflexivity|]).
    by apply elem_of_nil in Hk.
Defined.

(** C4, as stated, fails: a value the record stores goes before the
    default of the catalog, so with the default catalog values the
    FormState is not the one of the defaults for every record. *)
Lemma build_default_properties_stored_state :
  (build (deployedApplications (λ app, app) (Next [])) entry_id
     [] {[ "state" := VStr "COMPLETED" ]} [] baseline).1.2
  ≠ {[ "state" := VStr "RUNNING"; "sort" := VStr "id";
       "order" := VStr "ASC" ]}.
Proof.
  intros Hform. apply (f_equal (λ form, form !! "state")) in Hform.
  vm_compute in Hform. discriminate.
Qed.

(** With an empty record the form is the one of the defaults. *)
Example build_default_properties_empty_record :
  (build (deployedApplications (λ app, app) (Next [])) entry_id
     [] ∅ [] baseline).1
  = ([ {| key := "state"; label := "State"; defaultValue := VStr "RUNNING";
          domain := [VStr "ALL"; VStr "RUNNING"; VStr "COMPLETED"];
          dependentLookup := None |};
       {| key := "sort"; label := "Sort"; defaultValue := VStr "id";
          domain := [VStr "id"; VStr "name"; VStr "status"; VStr "startDate"];
          dependentLookup := None |};
       {| key := "order"; label := "Order"; defaultValue := VStr "ASC";
          domain := [VStr "ASC"; VStr "DESC"]; dependentLookup := None |} ],
     baseline_form).
Proof. vm_compute. reflexivity. Qed.

Lemma build_skips_unknown_keys_witness :
  let out :=
    (build (deployedApplications (λ app, app) (Next [])) entry_id [] ∅
       ["sort"; "priority"; "state"] baseline_catalog).1 in
  key <$> out.1 = ["sort"; "state"] ∧ length out.1 < 3.
Proof.
  destruct (build_skips_unknown_keys entry_id
              (deployedApplications (λ app, app) (Next [])) [] ∅
              ["sort"; "priority"; "state"] baseline_catalog)
    as (Hkeys & Hlen & _).
  - exists "priority". split; [|by vm_compute].
    apply (bool_decide_unpack _). vm_compute. exact I.
  - split; [|exact Hlen]. rewrite Hkeys. vm_compute. reflexivity.
Defined.

Lemma build_isolates_lookup_failure_witness :
  let response :=
    Next [ ({[ "id" := VStr "a1"; "status" := VStr "RUNNING" ]}
              : gmap string value) ] in
  let record : gmap string value := {[ "appName" := VStr "mock-app-name" ]} in
  let out_ko :=
    (build (failing_for "RUNNING" (Thrown (VStr "503")) response) entry_id
       [] record ["appName"; "state"] baseline_catalog).1 in
  let out_ok :=
    (build (deployedApplications (λ app, app) response) entry_id
       [] record ["appName"; "state"] baseline_catalog).1 in
  out_ko.1 = degrade "RUNNING" <$> out_ok.1 ∧ out_ko.2 = out_ok.2 ∧
  domain <$> out_ko.1 !! 0 = Some [] ∧
  out_ko.1 !! 1 = out_ok.1 !! 1.
Proof.
  intros response record.
  destruct (build_isolates_lookup_failure entry_id
              (failing_for "RUNNING" (Thrown (VStr "503")) response)
              (deployedApplications (λ app, app) response) "RUNNING"
              [] [] record ["appName"; "state"] baseline_catalog)
    as (Hdesc & Hform & _ & _).
  - intros w. eexists. reflexivity.
  - intros w w' status Hne. unfold failing_for.
    destruct (String.eqb_spec status "RUNNING") as [->|_]; [done|reflexivity].
  - split; [exact Hdesc|]. split; [exact Hform|]. split; by vm_compute.
Defined.

(** The two examples of section 8 of the spec. *)
Example build_appName :
  (build (deployedApplications (λ app, app)
            (Next [ {[ "id" := VStr "a1"; "status" := VStr "RUNNING" ]} ]))
     entry_id [] {[ "appName" := VStr "mock-app-name" ]} ["appName"]
     baseline_catalog).1
  = ([ {| key := "appName"; label := "Application"; defaultValue := VStr "";
          domain := [VStr "a1"]; dependentLookup := Some "RUNNING" |} ],
     {[ "appName" := VStr "mock-app-name" ]}).
Proof. vm_compute. reflexivity. Qed.

Example build_defaults :
  (build (deployedApplications (λ app, app) (Next [])) entry_id [] ∅
     ["state"; "sort"; "order"] baseline_catalog).1.2
  = {[ "state" := VStr "RUNNING"; "sort" := VStr "id"; "order" := VStr "ASC" ]}.
Proof. vm_compute. reflexivity. Qed.

(** A failing deployment service: the service logs the error and hands it
    on, the builder leaves the domain empty and still gives the form. *)
Example build_failing_service :
  build (deployedApplications (λ app, app) (Error (Thrown (VStr "503"))))
    entry_id [] {[ "appName" := VStr "mock-app-name" ]} ["appName"]
    baseline_catalog
  = ([ {| key := "appName"; label := "Application"; defaultValue := VStr "";
          domain := []; dependentLookup := Some "RUNNING" |} ],
     {[ "appName" := VStr "mock-app-name" ]},
     [Thrown (VStr "503")]).
Proof. vm_compute. reflexivity. Qed.

(** * Further properties of the code *)

(** ** [getObjectValue]: plain keys, descent, primitives on the way *)

Lemma dot_free_app (a b : string) :
  dot_free (a +:+ b) = dot_free a && dot_free b.
Proof.
  induction a as [|c a IH]; [done|].
  rewrite string_app_cons. simpl. by rewrite IH, andb_assoc.
Qed.

(** The names of the inherited members hold no dot. *)
Lemma inherited_name_dot_free key : inherited_name key = true → dot_free key.
Proof.
  unfold inherited_name. intros [Hkey|Hkey]%orb_prop.
  - apply String.eqb_eq in Hkey as ->. done.
  - apply bool_decide_eq_true in Hkey. unfold Object_prototype_functions in Hkey.
    repeat (apply elem_of_cons in Hkey as [->|Hkey]; [done|]).
    by apply elem_of_nil in Hkey.
Qed.

Lemma accumulated_next key k : accumulated ((key +:+ k) +:+ ".").
Proof.
  right. rewrite dot_free_app. apply andb_false_intro2. reflexivity.
Qed.

(** Behind an accumulated key only the segment itself can name an
    inherited member. *)
Lemma accumulated_inherited key k :
  accumulated key →
  inherited_name (key +:+ k) = true →
  key = "" ∧ inherited_name k = true.
Proof.
  intros [->|Hkey] Hname; [done|].
  apply inherited_name_dot_free in Hname.
  rewrite dot_free_app, Hkey in Hname. done.
Qed.


Lemma getObjectValue_loop_null_free rest : ∀ fields key k,
  null_free (VObj fields) →
  accumulated key →
  "__proto__" ∉ k :: rest →
  ∃ v, getObjectValue_loop (OfRecord fields) key k rest = Ok v.
Proof.
  induction rest as [|k' rest IH]; intros fields key k Hnf Hkey Hproto.
  - rewrite getObjectValue_loop_last. simpl. eauto.
  - apply not_elem_of_cons in Hproto as [Hk Hrest].
    destruct (fields !! (key +:+ k)) as [found|] eqn:Hfound.
    + assert (null_free found) as Hfree by (inversion Hnf; eauto).
      simpl. rewrite Hfound. simpl.
      destruct found; simpl; try (by apply IH; [|apply accumulated_next|]).
      * inversion Hfree.
      * apply IH; [done|by left|done].
    + rewrite getObjectValue_loop_retry.
      * apply IH; [done|apply accumulated_next|done].
      * apply reads_no_object_missing; [done|].
        intros Heq.
        destruct (accumulated_inherited key k Hkey) as [-> _];
          [by rewrite Heq|].
        by rewrite string_app_nil in Heq.
Qed.

(** X1. Apart from a stored [null] and from the prototype chain, no path
    raises: on a record that stores no [null], [getObjectValue] returns a
    value (possibly [undefined]) for every key none of whose segments is
    [__proto__]. *)
Theorem getObjectValue_null_free record key :
  null_free (VObj record) →
  "__proto__" ∉ split_dot key →
  ∃ v, getObjectValue (OfRecord record) key = Ok v.
Proof.
  intros Hnf Hproto. unfold getObjectValue.
  destruct (split_dot key) as [|k rest]; simpl; [eauto|].
  apply getObjectValue_loop_null_free; [done|by left|done].
Qed.

Lemma getObjectValue_null_free_witness :
  ∃ v, getObjectValue
         (OfRecord {[ "entry" := VObj {[ "isFolder" := VBool true ]} ]})
         "entry.path.name" = Ok v.
Proof.
  apply getObjectValue_null_free.
  - constructor. intros k v [_ <-]%lookup_singleton_Some.
    constructor. intros k' v' [_ <-]%lookup_singleton_Some.
    constructor.
  - apply (bool_decide_unpack _). vm_compute. exact I.
Defined.

(** Through the prototype chain a path raises on the empty record: the
    prototype of [Object.prototype] is [null]. *)
Example getObjectValue_prototype_chain_raises :
  getObjectValue (OfRecord ∅) "__proto__.__proto__.x" = Throw TypeError.
Proof. by vm_compute. Qed.

(** X2. On a key without dots [getObjectValue] is the property read: the
    value stored under the key; for a key the record lacks, the member
    inherited from [Object.prototype], which is the prototype itself at
    [__proto__] and a function at the names of its methods; [undefined]
    otherwise. *)
Theorem getObjectValue_plain_key record k :
  dot_free k →
  getObjectValue (OfRecord record) k
  = Ok (match record !! k with
        | Some v => Data v
        | None =>
            if String.eqb k "__proto__" then ObjectPrototype
            else if bool_decide (k ∈ Object_prototype_functions)
                 then Inherited k
                 else Data VUndefined
        end).
Proof.
  intros Hk. unfold getObjectValue. rewrite split_dot_free by done.
  by rewrite getObjectValue_loop_last, string_app_nil.
Qed.

Lemma getObjectValue_plain_key_witness :
  getObjectValue (OfRecord {[ "name" := VStr "docs" ]}) "displayName"
    = Ok (Data VUndefined) ∧
  getObjectValue (OfRecord {[ "name" := VStr "docs" ]}) "constructor"
    = Ok (Inherited "constructor") ∧
  getObjectValue (OfRecord {[ "name" := VStr "docs" ]}) "name"
    = Ok (Data (VStr "docs")).
Proof.
  rewrite (getObjectValue_plain_key _ "displayName") by reflexivity.
  rewrite (getObjectValue_plain_key _ "constructor") by reflexivity.
  rewrite (getObjectValue_plain_key _ "name") by reflexivity.
  by vm_compute.
Defined.

Lemma getObjectValue_unfold target k path :
  dot_free k →
  ∃ k' rest, split_dot path = k' :: rest ∧
    getObjectValue target (k +:+ "." +:+ path)
    = getObjectValue_loop target "" k (k' :: rest).
Proof.
  intros Hk. destruct (split_dot path) as [|k' rest] eqn:Hpath.
  { by destruct (split_dot_nonempty path). }
  exists k', rest. split; [done|]. unfold getObjectValue.
  change (k +:+ "." +:+ path) with (k +:+ String dot path).
  by rewrite split_dot_append, Hpath.
Qed.

(** X3. Once the first segment names an object, the rest of the path is
    resolved inside that object and nowhere else: a compound key of the
    outer record is not looked at any more. *)
Theorem getObjectValue_descends record k inner path :
  dot_free k →
  record !! k = Some (VObj inner) →
  getObjectValue (OfRecord record) (k +:+ "." +:+ path)
  = getObjectValue (OfRecord inner) path.
Proof.
  intros Hk Hinner.
  destruct (getObjectValue_unfold (OfRecord record) k path Hk)
    as (k' & rest & Hpath & ->).
  rewrite (getObjectValue_loop_descend _ _ _ _ _ inner)
    by by rewrite string_app_nil.
  unfold getObjectValue. by rewrite Hpath.
Qed.

Lemma getObjectValue_descends_witness :
  getObjectValue
    (OfRecord {[ "a" := VObj {[ "c" := VNum 1 ]}; "a.b" := VNum 7 ]}) "a.b"
  = getObjectValue (OfRecord {[ "c" := VNum 1 ]}) "b".
Proof.
  apply (getObjectValue_descends _ "a" _ "b"); [reflexivity|].
  vm_compute. reflexivity.
Defined.

Lemma string_length_app (a b : string) :
  String.length (a +:+ b) = String.length a + String.length b.
Proof.
  induction a as [|c a IH]; [done|].
  rewrite string_app_cons. simpl. by rewrite IH.
Qed.

(** A read under another key does not see whether the record has [k]. *)
Lemma read_property_delete record k key :
  key ≠ k →
  read_property (OfRecord (delete k record)) key
  = read_property (OfRecord record) key.
Proof. intros Hne. simpl. by rewrite lookup_delete_ne. Qed.

(** Rounds whose key is longer than [k] never read the property [k]. *)
Lemma getObjectValue_loop_delete record k rest : ∀ key k',
  String.length k < String.length key →
  getObjectValue_loop (OfRecord record) key k' rest
  = getObjectValue_loop (OfRecord (delete k record)) key k' rest.
Proof.
  induction rest as [|k'' rest IH]; intros key k' Hlen;
    assert (key +:+ k' ≠ k) as Hne
      by (intros <-; rewrite string_length_app in Hlen; lia).
  - by rewrite !getObjectValue_loop_last, read_property_delete.
  - cbn [getObjectValue_loop]. rewrite (read_property_delete _ _ _ Hne).
    destruct (read_property (OfRecord record) (key +:+ k')) as [value|];
      [|done].
    cbn [mbind result_bind].
    destruct (js_defined value && (js_typeof_object value || _)); [done|].
    apply IH. rewrite !string_length_app. simpl. lia.
Qed.

(** X4. A value that is not an object, met under a first segment other
    than [__proto__], is passed over: the path resolves as in the record
    without that property. *)
Theorem getObjectValue_primitive_passed_over record k v path :
  dot_free k →
  k ≠ "__proto__" →
  record !! k = Some v →
  typeof_object v = false →
  getObjectValue (OfRecord record) (k +:+ "." +:+ path)
  = getObjectValue (OfRecord (delete k record)) (k +:+ "." +:+ path).
Proof.
  intros Hk Hproto Hv Hprim.
  destruct (getObjectValue_unfold (OfRecord record) k path Hk)
    as (k' & rest & Hpath & ->).
  destruct (getObjectValue_unfold (OfRecord (delete k record)) k path Hk)
    as (k2 & rest2 & Hpath2 & ->).
  rewrite Hpath in Hpath2. injection Hpath2 as <- <-.
  rewrite (getObjectValue_loop_retry (OfRecord (delete k record)))
    by (rewrite string_app_nil;
        by apply reads_no_object_missing; [apply lookup_delete_eq|]).
  rewrite (getObjectValue_loop_retry (OfRecord record)).
  - apply getObjectValue_loop_delete.
    rewrite !string_length_app. simpl. lia.
  - exists (Data v). rewrite string_app_nil. simpl. by rewrite Hv.
Qed.

Lemma getObjectValue_primitive_passed_over_witness :
  getObjectValue (OfRecord {[ "a" := VStr "leaf"; "a.b" := VNum 7 ]}) "a.b"
  = getObjectValue
      (OfRecord (delete "a" {[ "a" := VStr "leaf"; "a.b" := VNum 7 ]})) "a.b".
Proof.
  apply (getObjectValue_primitive_passed_over _ "a" (VStr "leaf") "b");
    [reflexivity|done|by vm_compute|reflexivity].
Defined.

(** At [__proto__] the two records part: the stored primitive is passed
    over, and without it the loop descends into [Object.prototype]. *)
Example getObjectValue_proto_not_passed_over :
  getObjectValue
    (OfRecord {[ "__proto__" := VStr "leaf"; "__proto__.b" := VNum 7 ]})
    "__proto__.b" = Ok (Data (VNum 7)) ∧
  getObjectValue
    (OfRecord (delete "__proto__"
                 {[ "__proto__" := VStr "leaf"; "__proto__.b" := VNum 7 ]}))
    "__proto__.b" = Ok (Data VUndefined).
Proof. split; by vm_compute. Qed.

(** ** The service: errors and the running applications *)

(** X5. [handleError] never delivers a value, and never a falsy error: what it
    throws again is the error it was given when that is truthy, and
    ['Server error'] otherwise; what it logs is always the error it was
    given, once. *)
Theorem handleError_rethrows_truthy {A} (err : exn) (log : list exn) :
  ∃ thrown,
    handleError (A := A) err log = (Error thrown, log ++ [err]) ∧
    exn_truthy thrown = true ∧
    (exn_truthy err = true → thrown = err) ∧
    (exn_truthy err = false → thrown = Thrown (VStr "Server error")).
Proof.
  unfold handleError. destruct (exn_truthy err) eqn:Herr.
  - exists err. by repeat split.
  - exists (Thrown (VStr "Server error")). by repeat split.
Qed.


Section RunningApplications_properties.
Context {Model : Type} (ApplicationInstanceModel : gmap string value → Model).


End RunningApplications_properties.

(** ** [getContentActions] *)

Lemma toLowerCase_char_idemp c :
  toLowerCase_char (toLowerCase_char c) = toLowerCase_char c.
Proof. by destruct c as [[] [] [] [] [] [] [] []]. Qed.

Lemma toLowerCase_idemp s : toLowerCase (toLowerCase s) = toLowerCase s.
Proof.
  induction s as [|c s IH]; [done|].
  simpl. by rewrite toLowerCase_char_idemp, IH.
Qed.

Lemma toLowerCase_empty s : toLowerCase s = "" ↔ s = "".
Proof. by destruct s. Qed.

Lemma truthy_toLowerCase s :
  truthy (VStr (toLowerCase s)) = truthy (VStr s).
Proof. by destruct s. Qed.

Section ContentActions_properties.
Context {Action : Type} (action_target action_type : Action → string).

(** X7. [getContentActions] gives nothing for an empty target or an empty
    type; otherwise it gives, in the order of [actions] and with their
    repetitions, exactly the actions whose target and type are the given
    ones up to the case of the letters. *)
Theorem getContentActions_matches actions target type :
  let found := getContentActions action_target action_type actions target type in
  found `sublist_of` actions ∧
  (target = "" ∨ type = "" → found = []) ∧
  (target ≠ "" → type ≠ "" →
     ∀ entry, entry ∈ found ↔
       entry ∈ actions ∧
       toLowerCase (action_target entry) = toLowerCase target ∧
       toLowerCase (action_type entry) = toLowerCase type) ∧
  (target ≠ "" → type ≠ "" →
     ∀ others, others `sublist_of` actions →
       Forall (λ entry,
                 toLowerCase (action_target entry) = toLowerCase target ∧
                 toLowerCase (action_type entry) = toLowerCase type) others →
       others `sublist_of` found).
Proof.
  simpl. unfold getContentActions.
  assert (∀ entry,
    String.eqb (toLowerCase (action_target entry)) (toLowerCase target)
    && String.eqb (toLowerCase (action_type entry)) (toLowerCase type)
    ↔ toLowerCase (action_target entry) = toLowerCase target ∧
      toLowerCase (action_type entry) = toLowerCase type) as Hmatch.
  { intros entry. rewrite andb_True, !Is_true_true, !String.eqb_eq. done. }
  destruct (decide (target = "")) as [->|Htarget].
  { split; [apply sublist_nil_l|]. split; [done|]. by split; intros []. }
  destruct (decide (type = "")) as [->|Htype].
  { rewrite andb_false_r.
    split; [apply sublist_nil_l|]. split; [done|]. by split; intros _ []. }
  assert (truthy (VStr target) && truthy (VStr type) = true) as ->.
  { simpl. by rewrite andb_true_iff, !negb_true_iff, !String.eqb_neq. }
  split; [apply sublist_filter|]. split; [by intros [?|?]|].
  split; intros _ _.
  - intros entry. rewrite list_elem_of_filter, Hmatch. tauto.
  - intros others Hsub Hall. apply sublist_filter_greatest; [done|].
    eapply Forall_impl; [exact Hall|]. intros entry. by rewrite Hmatch.
Qed.

(** X8. The case of the letters of the arguments does not matter: the
    arguments and their lower-case forms select the same actions. *)
Theorem getContentActions_case_insensitive actions target type :
  getContentActions action_target action_type actions
    (toLowerCase target) (toLowerCase type)
  = getContentActions action_target action_type actions target type.
Proof.
  unfold getContentActions.
  by rewrite !truthy_toLowerCase, !toLowerCase_idemp.
Qed.

End ContentActions_properties.

Example getContentActions_folder_actions :
  getContentActions fst snd
    [("Folder", "button"); ("document", "menu"); ("FOLDER", "Button");
     ("folder", "menu")]
    "folder" "BUTTON"
  = [("Folder", "button"); ("FOLDER", "Button")].
Proof. vm_compute. reflexivity. Qed.

(** ** The component: route and current folder *)

Lemma indexOf_missing r rt :
  (∀ r', r' ∈ rt → route_ref r' ≠ route_ref r) → indexOf r rt = (-1)%Z.
Proof.
  induction rt as [|x rt IH]; intros Hmiss; [done|]. simpl.
  rewrite decide_False by (apply Hmiss; left).
  rewrite IH by (intros r' Hr'; apply Hmiss; by right). done.
Qed.

Lemma indexOf_first r front r' back :
  route_ref r' = route_ref r →
  (∀ x, x ∈ front → route_ref x ≠ route_ref r) →
  indexOf r (front ++ r' :: back) = Z.of_nat (length front).
Proof.
  intros Hsame. induction front as [|x front IH]; intros Hfront; simpl.
  - by rewrite decide_True.
  - rewrite decide_False by (apply Hfront; left).
    rewrite IH by (intros y Hy; apply Hfront; by right).
    destruct (Z.eqb_spec (Z.of_nat (length front)) (-1)); lia.
Qed.

(** Either no entry of the route is the object [r], or the route splits
    at the first entry that is. *)
Lemma route_split r rt :
  (∀ r', r' ∈ rt → route_ref r' ≠ route_ref r) ∨
  (∃ front r' back, rt = front ++ r' :: back ∧ route_ref r' = route_ref r ∧
     ∀ x, x ∈ front → route_ref x ≠ route_ref r).
Proof.
  induction rt as [|x rt IH].
  - left. intros r' Hr'. by apply elem_of_nil in Hr'.
  - destruct (decide (route_ref x = route_ref r)) as [Hx|Hx].
    + right. exists [], x, rt. split; [done|]. split; [done|].
      intros y Hy. by apply elem_of_nil in Hy.
    + destruct IH as [Hmiss|(front & r' & back & -> & Hr' & Hfront)].
      * left. intros r' [->|Hr']%elem_of_cons; auto.
      * right. exists (x :: front), r', back. split; [done|]. split; [done|].
        intros y [->|Hy]%elem_of_cons; auto.
Qed.

Lemma elem_of_removelast {A} (x : A) (l : list A) :
  x ∈ removelast l → x ∈ l.
Proof.
  destruct l as [|y l _] using rev_ind; [done|].
  rewrite removelast_last. intros Hx. apply elem_of_app. by left.
Qed.

Lemma getNodePath_string scope node v :
  truthy node = true → getNodePath scope node = Ok v → ∃ s, v = VStr s.
Proof.
  intros Hnode. unfold getNodePath. rewrite Hnode.
  destruct (lookup_ident scope "item") as [item|]; simpl; [|done].
  destruct (get_member item "entry") as [entry|]; simpl; [|done].
  destruct (get_member entry "path") as [path|]; simpl; [|done].
  destruct (get_member path "name") as [name|]; simpl; [|done].
  destruct (js_replace name "/Company Home" "") as [stripped|]; simpl; [|done].
  destruct (get_member entry "name") as [name'|]; simpl; [|done].
  intros [= <-]. eauto.
Qed.

Lemma value_null_or_not v : v = VNull ∨ v ≠ VNull.
Proof. destruct v; by (left + right). Qed.

Section DocumentListComponent_properties.
Context {W Folder : Type}.
Context (getFolder : W → value → notification Folder * W).
Implicit Types st : DocumentList (W := W) (Folder := Folder).


(** What [displayFolderContent] leaves alone, and what it sets. *)
Lemma displayFolderContent_kept st p :
  let st' := displayFolderContent getFolder st p in
  route st' = route st ∧ next_ref st' = next_ref st ∧
  navigate st' = navigate st ∧ breadcrumb st' = breadcrumb st ∧
  itemClick st' = itemClick st ∧
  (is_Some (errorMessage st) → is_Some (errorMessage st')) ∧
  (is_Some (folder st) → is_Some (folder st')).
Proof.
  simpl. unfold displayFolderContent.
  destruct p; try done;
    destruct (getFolder _ _) as [[f|e] w]; simpl; eauto 10.
Qed.

Lemma displayFolderContent_path st p :
  p ≠ VNull → currentFolderPath (displayFolderContent getFolder st p) = p.
Proof.
  intros Hp. unfold displayFolderContent.
  destruct p; try done; by destruct (getFolder _ _) as [[f|e] w].
Qed.

Lemma displayFolderContent_route st p :
  route (displayFolderContent getFolder st p) = route st.
Proof. apply displayFolderContent_kept. Qed.

Lemma goToRoute_found st r front r' back :
  navigate st = true →
  route st = front ++ r' :: back →
  route_ref r' = route_ref r →
  (∀ x, x ∈ front → route_ref x ≠ route_ref r) →
  goToRoute getFolder st r
  = displayFolderContent getFolder (set_route st (front ++ [r']))
      (route_path r).
Proof.
  intros Hnav Hroute Hsame Hfront. unfold goToRoute.
  rewrite Hnav, Hroute. rewrite indexOf_first by done.
  destruct (Z.gtb_spec (Z.of_nat (length front)) (-1)); [|lia].
  replace (Z.to_nat (Z.of_nat (length front) + 1)) with (length front + 1)
    by lia.
  by rewrite take_app_add'.
Qed.

Lemma goToRoute_missing st r :
  (∀ r', r' ∈ route st → route_ref r' ≠ route_ref r) →
  goToRoute getFolder st r = st.
Proof.
  intros Hmiss. unfold goToRoute.
  rewrite indexOf_missing by done. by destruct (navigate st).
Qed.

(** X9. [goToRoute(r)] cuts the route right behind the first entry that is
    [r]: the entries before it stay, the entries behind it go, and the
    folder of [r] becomes the current one. *)
Theorem goToRoute_truncates st r front back :
  navigate st = true →
  route st = front ++ r :: back →
  (∀ x, x ∈ front → route_ref x ≠ route_ref r) →
  route (goToRoute getFolder st r) = front ++ [r] ∧
  (route_path r ≠ VNull →
     currentFolderPath (goToRoute getFolder st r) = route_path r).
Proof.
  intros Hnav Hroute Hfront.
  rewrite (goToRoute_found st r front r back) by done. split.
  - by rewrite displayFolderContent_route.
  - apply displayFolderContent_path.
Qed.

(** X10. Going to the same route twice is going there once, as far as the route
    and the current folder go. *)
Theorem goToRoute_idempotent st r :
  route (goToRoute getFolder (goToRoute getFolder st r) r)
  = route (goToRoute getFolder st r) ∧
  currentFolderPath (goToRoute getFolder (goToRoute getFolder st r) r)
  = currentFolderPath (goToRoute getFolder st r).
Proof.
  destruct (navigate st) eqn:Hnav;
    [|by unfold goToRoute; rewrite Hnav; simpl; rewrite Hnav].
  destruct (route_split r (route st))
    as [Hmiss|(front & r' & back & Hroute & Hsame & Hfront)].
  - by rewrite !(goToRoute_missing st r).
  - rewrite (goToRoute_found st r front r' back) by done.
    set (st1 := displayFolderContent getFolder
                  (set_route st (front ++ [r'])) (route_path r)).
    assert (route st1 = front ++ [r']) as Hroute1
      by (unfold st1; by rewrite displayFolderContent_route).
    assert (navigate st1 = true) as Hnav1.
    { unfold st1.
      by rewrite (proj1 (proj2 (proj2 (displayFolderContent_kept _ _)))). }
    rewrite (goToRoute_found st1 r front r' []) by done.
    rewrite displayFolderContent_route. split; [done|].
    destruct (value_null_or_not (route_path r)) as [Hnull|Hnull].
    + unfold st1. by rewrite Hnull.
    + rewrite displayFolderContent_path by done.
      unfold st1. by rewrite displayFolderContent_path by done.
Qed.

Lemma folder_target_path scope item name path :
  folder_target scope item = Ok (Some (name, path)) →
  getNodePath scope item = Ok path.
Proof.
  unfold folder_target.
  destruct (get_member item "entry") as [entry|]; simpl; [|done].
  destruct (get_member entry "isFolder") as [isFolder|]; simpl; [|done].
  destruct (truthy isFolder); [|done].
  destruct (getNodePath scope item) as [path'|]; simpl; [|done].
  destruct (get_member entry "name") as [name'|]; simpl; [|done].
  by intros [= _ ->].
Qed.

(** How a call of [onItemClick] can end: with the event emitted and
    nothing else done, whether it completes or raises, or with the event
    emitted, a new entry pushed and its folder displayed. *)
Lemma onItemClick_cases scope st item :
  let st1 := emit_itemClick st item in
  (∃ completion, onItemClick getFolder scope st item = (completion, st1)) ∨
  (∃ name s,
     navigate st = true ∧ truthy item = true ∧
     getNodePath scope item = Ok (VStr s) ∧
     onItemClick getFolder scope st item
     = (Ok (), displayFolderContent getFolder
                 (push_route st1 name (VStr s)) (VStr s))).
Proof.
  intros st1. unfold onItemClick. fold st1.
  change (navigate st1) with (navigate st).
  destruct (navigate st) eqn:Hnav; [|by left; eexists].
  destruct (truthy item) eqn:Hitem; [|by left; eexists].
  destruct (folder_target scope item) as [[[name path]|]|e] eqn:Htarget;
    [|by left; eexists..].
  apply folder_target_path in Htarget.
  destruct (getNodePath_string scope item path Hitem Htarget) as [s ->].
  right. by exists name, s.
Qed.

Lemma identities_kept_sub st st' :
  identities_kept st →
  next_ref st' = next_ref st →
  (∀ r, r ∈ route st' → r ∈ route st) →
  identities_kept st'.
Proof.
  intros (Hpos & Hlt & Hroot & Hsame) Hnext Hsub.
  unfold identities_kept. rewrite Hnext. repeat split; auto.
Qed.

Lemma route_synced_display st p :
  (∀ r, r ∈ route st → route_path r ≠ VNull) →
  p = route_path (default rootFolder (last (route st))) →
  route_synced (displayFolderContent getFolder st p).
Proof.
  intros Hpaths Hp. unfold route_synced.
  rewrite displayFolderContent_route. split; [done|].
  rewrite displayFolderContent_path; [done|]. subst p.
  destruct (last (route st)) as [r|] eqn:Hlast; simpl; [|done].
  apply Hpaths. by apply last_Some_elem_of.
Qed.

Lemma identities_kept_display st p :
  identities_kept st → identities_kept (displayFolderContent getFolder st p).
Proof.
  intros Hst. apply (identities_kept_sub st); [done|..].
  - apply displayFolderContent_kept.
  - by rewrite displayFolderContent_route.
Qed.

(** A component as constructed has the two properties. *)
Lemma new_DocumentList_synced nav bread (w : W) :
  identities_kept (new_DocumentList (Folder := Folder) nav bread w) ∧
  route_synced (new_DocumentList (Folder := Folder) nav bread w).
Proof.
  unfold identities_kept, route_synced. simpl.
  repeat split; try lia; intros; by (exfalso; eapply not_elem_of_nil).
Qed.

(** X11. Every request leaves the breadcrumb and the current folder in
    agreement: after [ngOnInit], [onNavigateParentClick], [onItemClick]
    (however it ends) and [goToRoute] of an object of the route, the current
    path is again the path of the last entry of the route, or of
    [rootFolder] for the empty route, and no entry has the path [null]. *)
Theorem handle_keeps_route_synced scope st rq :
  identities_kept st →
  route_synced st →
  (∀ r, rq = GoToRoute r →
     ∀ r', r' ∈ route st → route_ref r' = route_ref r → r' = r) →
  identities_kept (handle getFolder scope st rq) ∧
  route_synced (handle getFolder scope st rq).
Proof.
  intros Hids [Hpaths Hcurrent] Hobject.
  destruct rq as [| |item|r]; cbn [handle].
  - (* ngOnInit *)
    unfold ngOnInit. split.
    + apply identities_kept_display.
      destruct Hids as (Hpos & Hlt & Hroot & Hsame).
      unfold identities_kept. simpl. split; [done|].
      split; [|split].
      * intros r [Hr| ->%list_elem_of_singleton]%elem_of_app; auto.
      * intros r [Hr| ->%list_elem_of_singleton]%elem_of_app; auto.
      * intros r r' [Hr| ->%list_elem_of_singleton]%elem_of_app
          [Hr'| ->%list_elem_of_singleton]%elem_of_app Href; auto.
        symmetry. auto.
    + apply route_synced_display; simpl.
      * intros r [Hr| ->%list_elem_of_singleton]%elem_of_app; [auto|done].
      * by rewrite last_snoc.
  - (* onNavigateParentClick *)
    unfold onNavigateParentClick. destruct (navigate st); [|done]. split.
    + apply identities_kept_display.
      apply (identities_kept_sub st); [done..|].
      intros r. apply elem_of_removelast.
    + apply route_synced_display; simpl; [|done].
      intros r Hr. by apply Hpaths, elem_of_removelast.
  - (* onItemClick *)
    destruct (onItemClick_cases scope st item)
      as [[completion ->]|(name & s & _ & _ & _ & ->)]; cbn [snd].
    { split; [exact Hids|exact (conj Hpaths Hcurrent)]. }
    split.
    + apply identities_kept_display.
      destruct Hids as (Hpos & Hlt & Hroot & Hsame).
      unfold identities_kept. simpl. split; [lia|]. split; [|split].
      * intros r [Hr| ->%list_elem_of_singleton]%elem_of_app; simpl;
          [apply Hlt in Hr|]; lia.
      * intros r [Hr| ->%list_elem_of_singleton]%elem_of_app; simpl;
          [auto|lia].
      * intros r r' [Hr| ->%list_elem_of_singleton]%elem_of_app
          [Hr'| ->%list_elem_of_singleton]%elem_of_app; simpl; auto;
          intros Href; [apply Hlt in Hr|apply Hlt in Hr']; lia.
    + apply route_synced_display; simpl.
      * intros r [Hr| ->%list_elem_of_singleton]%elem_of_app; [auto|done].
      * by rewrite last_snoc.
  - (* goToRoute *)
    destruct (navigate st) eqn:Hnav;
      [|by unfold goToRoute; rewrite Hnav].
    destruct (route_split r (route st))
      as [Hmiss|(front & r' & back & Hroute & Href & Hfront)].
    { by rewrite goToRoute_missing. }
    rewrite (goToRoute_found st r front r' back) by done.
    assert (r' ∈ route st) as Hr'
      by (rewrite Hroute, elem_of_app, elem_of_cons; auto).
    assert (r' = r) as -> by eauto.
    assert (∀ x, x ∈ front ++ [r] → x ∈ route st) as Hsub.
    { intros x [Hx| ->%list_elem_of_singleton]%elem_of_app; [|done].
      rewrite Hroute, elem_of_app. auto. }
    split.
    + apply identities_kept_display.
      by apply (identities_kept_sub st).
    + apply route_synced_display; simpl; [by auto|].
      by rewrite last_snoc.
Qed.

(** X12. Clicking a folder while [item] is bound nowhere: [getNodePath] raises,
    so that the call ends in a ReferenceError once the event is emitted;
    no entry is pushed, the current folder stays and the service is not
    asked for anything. *)
Theorem onItemClick_folder_raises scope st item entry isFolder :
  scope !! "item" = None →
  navigate st = true →
  truthy item = true →
  get_member item "entry" = Ok entry →
  get_member entry "isFolder" = Ok isFolder →
  truthy isFolder = true →
  let out := onItemClick getFolder scope st item in
  out.1 = Throw (ReferenceError "item") ∧
  itemClick out.2 = itemClick st ++ [VObj {[ "value" := item ]}] ∧
  route out.2 = route st ∧
  currentFolderPath out.2 = currentFolderPath st ∧
  alfrescoService out.2 = alfrescoService st.
Proof.
  intros Hscope Hnav Hitem Hentry HisFolder Hfolder. simpl.
  assert (folder_target scope item = Throw (ReferenceError "item")) as Htarget.
  { unfold folder_target. rewrite Hentry. simpl. rewrite HisFolder. simpl.
    rewrite Hfolder. unfold getNodePath, lookup_ident.
    by rewrite Hitem, Hscope. }
  unfold onItemClick.
  change (navigate (emit_itemClick st item)) with (navigate st).
  by rewrite Hnav, Hitem, Htarget.
Qed.

(** X13. Every call of [onItemClick] emits the one event [{value: item}],
    however it ends; and with navigation off, or for an item that is not a
    folder, the call does nothing else. *)
Theorem onItemClick_emits scope st item :
  itemClick (onItemClick getFolder scope st item).2
    = itemClick st ++ [VObj {[ "value" := item ]}] ∧
  (navigate st = false ∨ truthy item = false ∨
   (∃ entry isFolder,
      get_member item "entry" = Ok entry ∧
      get_member entry "isFolder" = Ok isFolder ∧
      truthy isFolder = false) →
   onItemClick getFolder scope st item = (Ok (), emit_itemClick st item)).
Proof.
  split.
  - destruct (onItemClick_cases scope st item)
      as [[completion ->]|(name & s & _ & _ & _ & ->)]; cbn [snd]; [done|].
    by rewrite (proj1 (proj2 (proj2 (proj2 (proj2
                 (displayFolderContent_kept _ _)))))).
  - unfold onItemClick.
    change (navigate (emit_itemClick st item)) with (navigate st).
    intros [->| [->|(entry & isFolder & Hentry & HisFolder & Hfolder)]];
      [done|by rewrite andb_false_r|].
    destruct (navigate st && truthy item); [|done].
    unfold folder_target. rewrite Hentry. simpl. rewrite HisFolder. simpl.
    by rewrite Hfolder.
Qed.

(** X14. Going into a folder and back: when [onItemClick] has pushed an entry,
    [onNavigateParentClick] takes it off again, and the route and the
    current folder are those from before the click. *)
Theorem onItemClick_then_parent scope st item st' :
  navigate st = true →
  route_synced st →
  onItemClick getFolder scope st item = (Ok (), st') →
  route st' ≠ route st →
  route (onNavigateParentClick getFolder st') = route st ∧
  currentFolderPath (onNavigateParentClick getFolder st')
  = currentFolderPath st.
Proof.
  intros Hnav [Hpaths Hcurrent] Hclick Hpushed.
  destruct (onItemClick_cases scope st item)
    as [[completion Hc]|(name & s & _ & _ & _ & Hc)];
    rewrite Hc in Hclick;
    apply (f_equal snd) in Hclick; cbn [snd] in Hclick; subst st'.
  { by destruct Hpushed. }
  set (st2 := push_route (emit_itemClick st item) name (VStr s)) in *.
  unfold onNavigateParentClick.
  rewrite (proj1 (proj2 (proj2 (displayFolderContent_kept st2 (VStr s))))).
  change (navigate st2) with (navigate st). rewrite Hnav.
  rewrite !displayFolderContent_route.
  change (route st2) with (route st ++ [ {| route_ref := next_ref st;
            route_name := name; route_path := VStr s |} ]).
  rewrite removelast_last. split; [done|].
  rewrite displayFolderContent_path; [done|].
  destruct (last (route st)) as [r|] eqn:Hlast; simpl; [|done].
  apply Hpaths. by apply last_Some_elem_of.
Qed.

Lemma handle_keeps_results scope st rq :
  (is_Some (errorMessage st) →
     is_Some (errorMessage (handle getFolder scope st rq))) ∧
  (is_Some (folder st) → is_Some (folder (handle getFolder scope st rq))).
Proof.
  destruct rq as [| |item|r]; cbn [handle].
  - unfold ngOnInit. split; intros H; by apply displayFolderContent_kept.
  - unfold onNavigateParentClick. destruct (navigate st); [|done].
    split; intros H; by apply displayFolderContent_kept.
  - destruct (onItemClick_cases scope st item)
      as [[completion ->]|(name & s & _ & _ & _ & ->)]; cbn [snd]; [done|].
    split; intros H; by apply displayFolderContent_kept.
  - unfold goToRoute. destruct (navigate st); [|done].
    destruct (_ >? _)%Z; [|done].
    split; intros H; by apply displayFolderContent_kept.
Qed.

(** X15. No request ever clears what a delivery has left: once an error is
    recorded in [errorMessage] it stays recorded through every later
    request, successful loads included, and a folder once loaded is never
    taken away by a failed load. *)
Theorem handle_all_keeps_results scope rqs st :
  (is_Some (errorMessage st) →
     is_Some (errorMessage (handle_all getFolder scope st rqs))) ∧
  (is_Some (folder st) →
     is_Some (folder (handle_all getFolder scope st rqs))).
Proof.
  revert st. induction rqs as [|rq rqs IH]; intros st; [done|].
  unfold handle_all in *. simpl.
  destruct (handle_keeps_results scope st rq) as [Herr Hfolder].
  destruct (IH (handle getFolder scope st rq)) as [IHerr IHfolder].
  split; auto.
Qed.

(** X16. Where the parent link is offered, there is a folder to leave: with
    the breadcrumb and the current folder in agreement,
    [canNavigateParent] holds only when navigation is on, the breadcrumb
    off, and the route ends in an entry whose path is not that of the
    root. *)
Theorem canNavigateParent_behind_root st :
  route_synced st →
  canNavigateParent st = true →
  navigate st = true ∧ breadcrumb st = false ∧
  ∃ front r, route st = front ++ [r] ∧
    route_path r ≠ route_path rootFolder ∧
    currentFolderPath st = route_path r.
Proof.
  intros [Hpaths Hcurrent] Hcan. unfold canNavigateParent in Hcan.
  apply andb_true_iff in Hcan as [[Hnav Hbread]%andb_true_iff Hpath].
  apply negb_true_iff in Hbread, Hpath.
  split; [done|]. split; [done|].
  destruct (last (route st)) as [r|] eqn:Hlast.
  - apply last_Some in Hlast as [front Hroute].
    exists front, r. split; [done|]. simpl in Hcurrent. split; [|done].
    rewrite <- Hcurrent. intros Heq. rewrite Heq in Hpath. done.
  - simpl in Hcurrent. rewrite Hcurrent in Hpath. done.
Qed.

End DocumentListComponent_properties.

(** *** The component at concrete inputs *)

Lemma elem_of_browsing r :
  r ∈ route browsing → r = rootFolder ∨ r = sites_entry ∨ r = docs_entry.
Proof.
  unfold browsing. simpl. rewrite !elem_of_cons, elem_of_nil. tauto.
Qed.

Lemma browsing_synced : identities_kept browsing ∧ route_synced browsing.
Proof.
  split; [split; [|split; [|split]]|split].
  - simpl. lia.
  - intros r [->|[->| ->]]%elem_of_browsing; simpl; lia.
  - by intros r [->|[->| ->]]%elem_of_browsing.
  - by intros r r' [->|[->| ->]]%elem_of_browsing
                  [->|[->| ->]]%elem_of_browsing.
  - by intros r [->|[->| ->]]%elem_of_browsing.
  - reflexivity.
Qed.

Lemma goToRoute_truncates_witness :
  route (goToRoute echo_service browsing sites_entry)
    = [rootFolder; sites_entry] ∧
  currentFolderPath (goToRoute echo_service browsing sites_entry)
    = VStr "/Sites".
Proof.
  destruct (goToRoute_truncates echo_service browsing sites_entry
              [rootFolder] [docs_entry]) as [Hroute Hpath].
  - reflexivity.
  - reflexivity.
  - by intros x ->%list_elem_of_singleton.
  - split; [exact Hroute|]. by apply Hpath.
Defined.

Lemma handle_keeps_route_synced_witness :
  route_synced (handle echo_service ∅ browsing (GoToRoute rootFolder)) ∧
  route_synced (handle echo_service ∅ browsing (ItemClick docs_node)) ∧
  route_synced (handle echo_service ∅ browsing NavigateParentClick).
Proof.
  destruct browsing_synced as [Hids Hsynced].
  split; [|split];
    apply (handle_keeps_route_synced echo_service ∅ browsing); try done.
  by intros r [= <-] r' [->|[->| ->]]%elem_of_browsing.
Defined.

Lemma onItemClick_folder_raises_witness :
  let out := onItemClick echo_service ∅ browsing docs_node in
  out.1 = Throw (ReferenceError "item") ∧
  route out.2 = route browsing ∧
  alfrescoService out.2 = alfrescoService browsing.
Proof.
  destruct (onItemClick_folder_raises echo_service ∅ browsing docs_node
              (VObj {[ "name" := VStr "docs"; "isFolder" := VBool true;
                       "path" := VObj {[ "name" := VStr "/Company Home/Sites" ]} ]})
              (VBool true))
    as (Hraise & _ & Hroute & _ & Hservice); try reflexivity.
  by split.
Defined.

Lemma onItemClick_then_parent_witness :
  let scope : gmap string value := {[ "item" := docs_node ]} in
  let st' := (onItemClick echo_service scope browsing docs_node).2 in
  route st' = route browsing ++
                [ {| route_ref := 3; route_name := VStr "docs";
                     route_path := VStr "/Sites/docs" |} ] ∧
  route (onNavigateParentClick echo_service st') = route browsing ∧
  currentFolderPath (onNavigateParentClick echo_service st')
    = currentFolderPath browsing.
Proof.
  intros scope st'. split; [by vm_compute|].
  apply (onItemClick_then_parent echo_service scope browsing docs_node).
  - reflexivity.
  - apply browsing_synced.
  - by vm_compute.
  - by vm_compute.
Defined.

Lemma canNavigateParent_behind_root_witness :
  ∃ front r, route browsing = front ++ [r] ∧
    route_path r ≠ route_path rootFolder ∧
    currentFolderPath browsing = route_path r.
Proof.
  apply (canNavigateParent_behind_root browsing).
  - apply browsing_synced.
  - reflexivity.
Defined.

(** At the root the parent link is not offered; the method, asked all the
    same, takes the root itself off the route. *)
Example onNavigateParentClick_at_root :
  let st := ngOnInit echo_service (new_DocumentList true false []) in
  route st = [rootFolder] ∧ canNavigateParent st = false ∧
  route (onNavigateParentClick echo_service st) = [] ∧
  currentFolderPath (onNavigateParentClick echo_service st) = VStr "".
Proof. by vm_compute. Qed.

(** A failed load records the error, and the folder loaded before stays. *)
Example goToRoute_failed_load :
  let locked := {| route_ref := 1; route_name := VStr "locked";
                   route_path := VStr "/locked" |} in
  let st := goToRoute echo_service
              {| navigate := true; breadcrumb := true;
                 currentFolderPath := VStr "/locked/in";
                 folder := Some (VStr "/locked/in"); errorMessage := None;
                 route := [rootFolder; locked; docs_entry]; itemClick := [];
                 alfrescoService := []; next_ref := 3 |} locked in
  route st = [rootFolder; locked] ∧
  errorMessage st = Some (Thrown (VStr "403")) ∧
  folder st = Some (VStr "/locked/in").
Proof. by vm_compute. Qed.

Example getRunningApplications_unbound :
  getRunningApplications (λ app, app) ∅ (VStr "http://bpm")
    (λ _ _, Next []) []
  = Throw (ReferenceError "status").
Proof. reflexivity. Qed.

Example getRunningApplications_ambient :
  getRunningApplications (λ app, app) {[ "status" := VStr "" ]}
    VUndefined
    (λ url query,
       Next [ {[ "url" := VStr url; "query" := VObj query ]} ]) []
  = Ok (Next [ {[ "url" := VStr "undefined/alfresco-deployment-service/v1/applications";
                  "query" := VObj {[ "status" := VStr "" ]} ]} ], []).
Proof. by vm_compute. Qed.

(** ** [getObjectValue] makes up no value *)




(** An inherited member is returned as it is, stored nowhere in the
    record. *)
Example getObjectValue_returns_inherited :
  getObjectValue (OfRecord ∅) "constructor" = Ok (Inherited "constructor") ∧
  getObjectValue (OfRecord ∅) "__proto__" = Ok ObjectPrototype.
Proof. split; by vm_compute. Qed.

(** ** The component with navigation off *)

Section DocumentListComponent_navigation_off.
Context {W Folder : Type}.
Context (getFolder : W → value → notification Folder * W).
Implicit Types st : DocumentList (W := W) (Folder := Folder).

Lemma handle_navigation_off scope st rq :
  navigate st = false →
  rq ≠ NgOnInit →
  let st' := handle getFolder scope st rq in
  navigate st' = false ∧ route st' = route st ∧
  currentFolderPath st' = currentFolderPath st ∧
  folder st' = folder st ∧ errorMessage st' = errorMessage st ∧
  alfrescoService st' = alfrescoService st.
Proof.
  intros Hnav Hrq. destruct rq as [| |item|r]; cbn [handle]; [done|..].
  - unfold onNavigateParentClick. by rewrite Hnav.
  - unfold onItemClick.
    change (navigate (emit_itemClick st item)) with (navigate st).
    by rewrite Hnav.
  - unfold goToRoute. by rewrite Hnav.
Qed.

(** X18. With [navigate] off, clicks on the parent link, on items and on the
    breadcrumb change nothing of the navigation, and ask nothing of the
    service: the route, the current path, the folder and the error stay as
    they are through any sequence of such requests. *)
Theorem handle_all_navigation_off scope rqs st :
  navigate st = false →
  NgOnInit ∉ rqs →
  let st' := handle_all getFolder scope st rqs in
  route st' = route st ∧
  currentFolderPath st' = currentFolderPath st ∧
  folder st' = folder st ∧ errorMessage st' = errorMessage st ∧
  alfrescoService st' = alfrescoService st.
Proof.
  revert st. induction rqs as [|rq rqs IH]; intros st Hnav Hrqs; [done|].
  apply not_elem_of_cons in Hrqs as [Hrq Hrqs].
  destruct (handle_navigation_off scope st rq Hnav)
    as (Hnav' & Hroute & Hpath & Hfolder & Herr & Hservice); [done|].
  specialize (IH (handle getFolder scope st rq) Hnav' Hrqs).
  unfold handle_all in *. simpl in *.
  by rewrite <- Hroute, <- Hpath, <- Hfolder, <- Herr, <- Hservice.
Qed.

End DocumentListComponent_navigation_off.

Lemma handle_all_navigation_off_witness :
  let st := {| navigate := false; breadcrumb := true;
               currentFolderPath := VStr "/Sites";
               folder := Some (VStr "/Sites"); errorMessage := None;
               route := [rootFolder; sites_entry]; itemClick := [];
               alfrescoService := [VStr ""; VStr "/Sites"]; next_ref := 2 |} in
  let st' := handle_all echo_service ∅ st
               [ItemClick docs_node; NavigateParentClick;
                GoToRoute rootFolder] in
  route st' = [rootFolder; sites_entry] ∧
  currentFolderPath st' = VStr "/Sites" ∧
  alfrescoService st' = [VStr ""; VStr "/Sites"].
Proof.
  intros st st'.
  destruct (handle_all_navigation_off echo_service ∅
              [ItemClick docs_node; NavigateParentClick; GoToRoute rootFolder]
              st) as (Hroute & Hpath & _ & _ & Hservice).
  - reflexivity.
  - rewrite !not_elem_of_cons. repeat split; try done. apply not_elem_of_nil.
  - by split.
Defined.
